(** * MyBlobFS: validators, path classification and the four FUSE callbacks

    A shallow embedding of the driver, followed by the properties of the
    specification that concern it.  The repository holds two copies of the
    driver: [src/src/myblobfs.c], the corrected one, is the program embedded
    here; the two validators of the older [src/myblobfs.c] are kept in
    [Module Legacy] (its callbacks differ in the error codes they return).
    [Module LegacyDriver] holds the path test and three callbacks of the
    older copy; its [my_getattr] (a [return] without a value) and its
    [main] (a password pointer read before it is set) are left out.

    Conventions.
    - A [string] stands for the characters of a C string before its
      terminator, so it holds no NUL character.  [char_at] returns the
      terminator when it is indexed at the length.
    - Machine integers are [Z] with the conversions written out:
      [to_int] (32-bit two's complement), [to_ulong] (64 bits, also
      [size_t]); [off_t] is a signed 64-bit value (FUSE is built with
      64-bit file offsets).  Constants of the system headers have their
      Linux values.
    - What the C standard leaves undefined (a copy outside an object, a NULL
      string handed to [atoi], too few columns in a row) is the outcome
      [Fault]. *)

From Stdlib Require Import ZArith Bool List Ascii String Lia.
From Stdlib Require Import DecimalString DecimalN DecimalPos DecimalFacts.
Import ListNotations.

Local Open Scope string_scope.
Local Open Scope Z_scope.

(** ** The C library, as far as the driver uses it *)

Module Libc.

(** Character code, as an [unsigned char]. *)
Definition code (c : ascii) : Z := Z.of_nat (nat_of_ascii c).

(** <ctype.h> in the "C" locale (the driver never calls setlocale). *)
Definition isdigit (c : ascii) : bool := (48 <=? code c) && (code c <=? 57).
Definition isupper (c : ascii) : bool := (65 <=? code c) && (code c <=? 90).
Definition islower (c : ascii) : bool := (97 <=? code c) && (code c <=? 122).
Definition isalpha (c : ascii) : bool := isupper c || islower c.
Definition isalnum (c : ascii) : bool := isalpha c || isdigit c.
Definition isspace (c : ascii) : bool :=
  ((9 <=? code c) && (code c <=? 13)) || (code c =? 32).

(** <string.h> *)
Definition strlen (s : string) : nat := String.length s.

(** [str[i]]: the character at index [i], the terminator at the end. *)
Definition char_at (s : string) (i : nat) : ascii :=
  match String.get i s with
  | Some c => c
  | None => zero
  end.

(** [str + 1] for a string that is not empty. *)
Definition ptr_succ (s : string) : string :=
  match s with
  | String _ rest => rest
  | EmptyString => EmptyString
  end.

(** [strcmp]: the sign of the first difference, 0 for equal strings. *)
Fixpoint strcmp (a b : string) : Z :=
  match a, b with
  | EmptyString, EmptyString => 0
  | EmptyString, String _ _ => -1
  | String _ _, EmptyString => 1
  | String c a', String d b' =>
      if (c =? d)%char then strcmp a' b'
      else if code c <? code d then -1 else 1
  end.

(** Integer conversions. *)
Definition to_unsigned (bits : Z) (z : Z) : Z := z mod 2 ^ bits.
Definition to_signed (bits : Z) (z : Z) : Z :=
  (z + 2 ^ (bits - 1)) mod 2 ^ bits - 2 ^ (bits - 1).
Definition to_int : Z -> Z := to_signed 32.
Definition to_ulong : Z -> Z := to_unsigned 64.

Definition INT_MAX : Z := 2 ^ 31 - 1.
Definition LONG_MAX : Z := 2 ^ 63 - 1.
Definition LONG_MIN : Z := - 2 ^ 63.
Definition ULONG_MAX : Z := 2 ^ 64 - 1.

(** [atoi(s)] is [(int) strtol(s, NULL, 10)]: white space, an optional
    sign, then the longest run of digits; [strtol] saturates at the range
    of [long] and the conversion to [int] keeps the low 32 bits. *)
Fixpoint skip_space (s : string) : string :=
  match s with
  | String c rest => if isspace c then skip_space rest else s
  | EmptyString => EmptyString
  end.

Fixpoint digits_value (acc : Z) (s : string) : Z :=
  match s with
  | String c rest =>
      if isdigit c then digits_value (acc * 10 + (code c - 48)) rest else acc
  | EmptyString => acc
  end.

Definition strtol (s : string) : Z :=
  let t := skip_space s in
  let v :=
    if (char_at t 0 =? "-")%char then - digits_value 0 (ptr_succ t)
    else if (char_at t 0 =? "+")%char then digits_value 0 (ptr_succ t)
    else digits_value 0 t in
  Z.max LONG_MIN (Z.min LONG_MAX v).

Definition atoi (s : string) : Z := to_int (strtol s).

(** [sprintf] with a format that only has [%s] directives. *)
Fixpoint sprintf (fmt : string) (args : list string) : string :=
  match fmt with
  | String "%" (String "s" rest) =>
      match args with
      | a :: args' => a ++ sprintf rest args'
      | [] => sprintf rest []
      end
  | String c rest => String c (sprintf rest args)
  | EmptyString => EmptyString
  end.

(** <errno.h> *)
Definition ENOENT : Z := 2.
Definition EAGAIN : Z := 11.
Definition ENOMEM : Z := 12.
Definition EISDIR : Z := 21.
Definition EROFS : Z := 30.

(** <fcntl.h> *)
Definition O_RDONLY : Z := 0.
Definition O_WRONLY : Z := 1.
Definition O_RDWR : Z := 2.
Definition O_ACCMODE : Z := 3.

(** <sys/stat.h>; the modes are octal in C. *)
Definition octal3 (a b c : Z) : Z := a * 64 + b * 8 + c.
Definition S_IFMT : Z := 0xf000.
Definition S_IFDIR : Z := 0x4000.
Definition S_IFREG : Z := 0x8000.

(** The value of a C comparison. *)
Definition c_eq (a b : Z) : Z := if a =? b then 1 else 0.

End Libc.
Import Libc.

(** ** Outcomes *)

Inductive outcome (A : Type) : Type :=
| Ret (a : A)
| Fault.
Arguments Ret {A} a.
Arguments Fault {A}.

Definition bind {A B : Type} (m : outcome A) (k : A -> outcome B) : outcome B :=
  match m with
  | Ret a => k a
  | Fault => Fault
  end.

Notation "x <- m ;; k" := (bind m (fun x => k))
  (at level 61, m at next level, right associativity).

(** ** Validators (src/src/myblobfs.c, lines 143-210) *)

Definition my_bool := bool.

(** The loop
    [for (i = 0; i < strlen(str); i++) if (reject(str[i])) return 0;]
    followed by [return 1]: [todo] is [strlen(str) - i], the number of
    iterations still to run.  The counter is an [int]; a path is shorter
    than PATH_MAX and an option shorter than the argument limit, so it does
    not overflow. *)
Fixpoint scan_chars (reject : ascii -> bool) (str : string) (i todo : nat)
  : my_bool :=
  match todo with
  | O => true
  | S todo' =>
      if reject (char_at str i) then false
      else scan_chars reject str (S i) todo'
  end.

Definition is_uint (str : string) : my_bool :=
  if (strlen str =? 0)%nat then false
  else scan_chars (fun c => negb (isdigit c)) str 0 (strlen str).

Definition is_valid_ident (str : string) : my_bool :=
  if (strlen str =? 0)%nat then false
  else scan_chars (fun c => negb (isalnum c) && negb (c =? "_")%char)
         str 0 (strlen str).

Definition is_valid_path (path : string) : my_bool :=
  if strcmp path "/" =? 0 then true
  else if negb (char_at path 0 =? "/")%char then false
  else if negb (is_uint (ptr_succ path)) then false
  else true.

(** The three-way classification every callback performs with
    [is_valid_path] and [strcmp(path, "/")]: [my_getattr], [my_open] and
    [my_read] all start with these two tests and then take [path + 1] as the
    file name. *)
Inductive resolution : Type :=
| RootDirectory
| RowKey (digits : string)
| Invalid.

Definition resolve (path : string) : resolution :=
  if negb (is_valid_path path) then Invalid
  else if strcmp path "/" =? 0 then RootDirectory
  else RowKey (ptr_succ path).

(** ** The environment of a callback *)

(** A fetched row: [row[i]] is NULL or the bytes of the value, whose length
    is what [mysql_fetch_lengths] reports. *)
Definition MYSQL_ROW : Type := list (option string).
Definition MYSQL_RES : Type := list MYSQL_ROW.

(** The three globals set by [main], the allocator, the server and the
    process credentials.  [malloc_ok w k] tells whether the [k]-th [malloc]
    of a callback (counted from 0) returns a block; [mysql_query w q] is
    what [mysql_use_result] returns after [mysql_real_query] was given the
    text [q]: [None] for NULL, else the rows in the order they are
    fetched. *)
Record world : Type := {
  my_table : string;
  my_name_field : string;
  my_data_field : string;
  malloc_ok : nat -> bool;
  mysql_query : string -> option MYSQL_RES;
  getuid : Z;
  getgid : Z
}.

Definition readdir_qp : string := "SELECT %s FROM %s ORDER BY %s".
Definition read_qp : string := "SELECT %s FROM %s WHERE %s = %s".
Definition size_fp : string := "LENGTH(%s)".

(** [malloc(size)]: the capacity of the block, or NULL. *)
Definition malloc (w : world) (k : nat) (size : nat) : option nat :=
  if malloc_ok w k then Some size else None.

(** [strcpy] and [sprintf] into a block of [cap] bytes: the text and its
    terminator have to fit. *)
Definition write_str (cap : nat) (text : string) : outcome string :=
  if (strlen text + 1 <=? cap)%nat then Ret text else Fault.

Definition mysql_fetch_row (res : MYSQL_RES) : option MYSQL_ROW :=
  match res with
  | row :: _ => Some row
  | [] => None
  end.

(** [row[i]] *)
Definition row_col (row : MYSQL_ROW) (i : nat) : outcome (option string) :=
  match nth_error row i with
  | Some v => Ret v
  | None => Fault
  end.

(** [lengths[i]] of [mysql_fetch_lengths]: 0 for NULL. *)
Definition field_length (v : option string) : Z :=
  match v with
  | Some s => Z.of_nat (strlen s)
  | None => 0
  end.

(** [atoi(row[0])] *)
Definition atoi_field (v : option string) : outcome Z :=
  match v with
  | Some s => Ret (atoi s)
  | None => Fault
  end.

(** [memcpy(buf, src + from, n)]: the [n] bytes copied, which have to lie
    inside the value; nothing is read when [n] is 0. *)
Definition memcpy (src : option string) (from n : Z) : outcome string :=
  if n =? 0 then Ret ""
  else
    match src with
    | Some s =>
        if (0 <=? from) && (from + n <=? Z.of_nat (strlen s))
        then Ret (substring (Z.to_nat from) (Z.to_nat n) s)
        else Fault
    | None => Fault
    end.

(** The fields of [struct stat] the driver writes; [memset] clears them. *)
Record stat : Type := {
  st_mode : Z;
  st_nlink : Z;
  st_size : Z;
  st_uid : Z;
  st_gid : Z
}.

Definition stat_zero : stat :=
  {| st_mode := 0; st_nlink := 0; st_size := 0; st_uid := 0; st_gid := 0 |}.

(** ** my_getattr (src/src/myblobfs.c, lines 217-329)

    Returns the [int] result and the caller's [struct stat] as the call
    leaves it. *)
Definition my_getattr (w : world) (path : string) (stbuf : stat)
  : outcome (Z * stat) :=
  if negb (is_valid_path path) then Ret (- ENOENT, stbuf)
  else
    let stbuf := stat_zero in
    if strcmp path "/" =? 0 then
      Ret (0, {| st_mode := Z.lor S_IFDIR (octal3 5 5 5);
                 st_nlink := 2;
                 st_size := st_size stbuf;
                 st_uid := getuid w;
                 st_gid := getgid w |})
    else
      match malloc w 0 (strlen path + 1) with
      | Some filename_cap =>
          filename <- write_str filename_cap (ptr_succ path) ;;
          match malloc w 1 (strlen size_fp + strlen (my_data_field w) + 1) with
          | Some size_cap =>
              my_data_field_size <-
                write_str size_cap (sprintf size_fp [my_data_field w]) ;;
              match malloc w 2 (strlen read_qp + strlen my_data_field_size
                                + strlen (my_table w)
                                + strlen (my_name_field w)
                                + strlen filename) with
              | Some query_cap =>
                  query <-
                    write_str query_cap
                      (sprintf read_qp [my_data_field_size; my_table w;
                                        my_name_field w; filename]) ;;
                  match mysql_query w query with
                  | Some res =>
                      match mysql_fetch_row res with
                      | Some row =>
                          v <- row_col row 0 ;;
                          size <- atoi_field v ;;
                          Ret (0, {| st_mode := Z.lor S_IFREG (octal3 5 5 5);
                                     st_nlink := 1;
                                     st_size := size;
                                     st_uid := getuid w;
                                     st_gid := getgid w |})
                      | None => Ret (- ENOENT, stbuf)
                      end
                  | None => Ret (- ENOENT, stbuf)
                  end
              | None => Ret (- ENOENT, stbuf)
              end
          | None => Ret (ENOENT, stbuf)
          end
      | None => Ret (- ENOENT, stbuf)
      end.

(** ** my_readdir (lines 338-399)

    The calls the callback makes, in order, and then its result: [filler]
    is the consumer of the listing, and the allocation and the query are
    recorded to place the [filler] calls in time.  The calls made stay made
    whatever happens after them. *)
Inductive event : Type :=
| Filler (name : option string)
| Malloc (size : nat) (ok : bool)
| Query (text : string).

(** [while (row = mysql_fetch_row(res)) filler(buf, row[0], NULL, 0);] *)
Fixpoint fill_rows (res : MYSQL_RES) : list event * outcome unit :=
  match res with
  | [] => ([], Ret tt)
  | row :: res' =>
      match row_col row 0 with
      | Ret name =>
          let (calls, r) := fill_rows res' in (Filler name :: calls, r)
      | Fault => ([], Fault)
      end
  end.

Definition my_readdir (w : world) (path : string) : list event * outcome Z :=
  if negb (strcmp path "/" =? 0) then ([], Ret (- ENOENT))
  else
    let dots := [Filler (Some "."); Filler (Some "..")] in
    let size := (strlen readdir_qp + strlen (my_name_field w)
                 + strlen (my_table w) + strlen (my_name_field w))%nat in
    match malloc w 0 size with
    | Some query_cap =>
        match write_str query_cap
                (sprintf readdir_qp [my_name_field w; my_table w;
                                     my_name_field w]) with
        | Ret query =>
            match mysql_query w query with
            | Some res =>
                let (names, r) := fill_rows res in
                (dots ++ [Malloc size true; Query query] ++ names,
                 _ <- r ;; Ret 0)%list
            | None =>
                (dots ++ [Malloc size true; Query query], Ret (- ENOENT))%list
            end
        | Fault => (dots ++ [Malloc size true], Fault)%list
        end
    | None => (dots ++ [Malloc size false], Ret (- ENOMEM))%list
    end.

(** ** my_open (lines 405-493)

    [fi->flags & O_RDONLY == 0] is [fi->flags & (O_RDONLY == 0)]: in C the
    comparison binds tighter than the bitwise and. *)
Definition my_open (w : world) (path : string) (flags : Z) : outcome Z :=
  if negb (is_valid_path path) then Ret (- ENOENT)
  else if negb (Z.land flags (c_eq O_RDONLY 0) =? 0) then Ret (- EROFS)
  else if strcmp path "/" =? 0 then Ret 0
  else
    match malloc w 0 (strlen path + 1) with
    | Some filename_cap =>
        filename <- write_str filename_cap (ptr_succ path) ;;
        match malloc w 1 (strlen read_qp + 1 + strlen (my_table w)
                          + strlen (my_name_field w) + strlen filename) with
        | Some query_cap =>
            query <-
              write_str query_cap
                (sprintf read_qp ["1"; my_table w; my_name_field w;
                                  filename]) ;;
            match mysql_query w query with
            | Some res =>
                match mysql_fetch_row res with
                | None => Ret (- ENOENT)
                | Some _ => Ret 0
                end
            | None => Ret (- EAGAIN)
            end
        | None => Ret (- ENOMEM)
        end
    | None => Ret (- ENOMEM)
    end.

(** ** my_read (lines 500-593)

    [size] is a [size_t] and [len] an [unsigned long], so [offset] is
    converted to [unsigned long] in both comparisons and the sum wraps at
    2^64.  An error code is stored in [size] and comes back through the
    conversion of [return size] to [int].  The result is that [int] and the
    bytes [memcpy] stored in [buf]. *)
Definition my_read (w : world) (path : string) (size offset : Z)
  : outcome (Z * string) :=
  if negb (is_valid_path path) then Ret (- ENOENT, "")
  else if strcmp path "/" =? 0 then Ret (- EISDIR, "")
  else
    match malloc w 0 (strlen path) with
    | Some filename_cap =>
        filename <- write_str filename_cap (ptr_succ path) ;;
        match malloc w 1 (strlen read_qp + strlen (my_data_field w)
                          + strlen (my_table w) + strlen (my_name_field w)
                          + strlen filename + 1) with
        | Some query_cap =>
            query <-
              write_str query_cap
                (sprintf read_qp [my_data_field w; my_table w;
                                  my_name_field w; filename]) ;;
            match mysql_query w query with
            | Some res =>
                match mysql_fetch_row res with
                | Some row =>
                    v <- row_col row 0 ;;
                    let len := field_length v in
                    if to_ulong offset <=? len then
                      let size :=
                        if to_ulong (to_ulong offset + size) >? len
                        then to_ulong (len - to_ulong offset)
                        else size in
                      copied <- memcpy v offset size ;;
                      Ret (to_int size, copied)
                    else Ret (to_int 0, "")
                | None => Ret (to_int (to_ulong (- ENOENT)), "")
                end
            | None => Ret (to_int (to_ulong (- ENOMEM)), "")
            end
        | None => Ret (to_int (to_ulong (- ENOMEM)), "")
        end
    | None => Ret (to_int (to_ulong (- ENOMEM)), "")
    end.

(** ** The validators of the older copy (src/myblobfs.c, lines 109-141)

    No test for the empty string, and [||] where the corrected file has
    [&&]. *)
Module Legacy.

Definition is_uint (str : string) : my_bool :=
  scan_chars (fun c => negb (isdigit c)) str 0 (strlen str).

Definition is_valid_ident (str : string) : my_bool :=
  scan_chars (fun c => negb (isalnum c) || negb (c =? "_")%char)
    str 0 (strlen str).

End Legacy.

(** ** The vocabulary of the specification *)

Definition decimal_digit (c : ascii) : Prop :=
  In c (list_ascii_of_string "0123456789").

Definition alphanumeric (c : ascii) : Prop :=
  In c (list_ascii_of_string
          "abcdefghijklmnopqrstuvwxyzABCDEFGHIJKLMNOPQRSTUVWXYZ0123456789").

Definition every_char (P : ascii -> Prop) (s : string) : Prop :=
  Forall P (list_ascii_of_string s).

(** File type and permission bits of a mode. *)
Definition file_type (mode : Z) : Z := Z.land mode S_IFMT.
Definition permissions (mode : Z) : Z := Z.land mode 0xfff.

(** r-xr-xr-x and r--r--r-- *)
Definition read_execute_for_all : Z := octal3 5 5 5.
Definition read_only_for_all : Z := octal3 4 4 4.

(** The access mode of the flags of an open. *)
Definition access_mode (flags : Z) : Z := Z.land flags O_ACCMODE.

(** ** The scenario of the specification

    Table "docs", name column "id", data column "body", one row
    (id = 1, body = "hello"). *)
Definition docs_query (q : string) : option MYSQL_RES :=
  if (q =? "SELECT LENGTH(body) FROM docs WHERE id = 1")%string
  then Some [[Some "5"]]
  else if (q =? "SELECT body FROM docs WHERE id = 1")%string
  then Some [[Some "hello"]]
  else if (q =? "SELECT 1 FROM docs WHERE id = 1")%string
  then Some [[Some "1"]]
  else if (q =? "SELECT id FROM docs ORDER BY id")%string
  then Some [[Some "1"]]
  else if prefix "SELECT " q then Some []
  else None.

Definition docs_world_with (alloc : nat -> bool)
  (server : string -> option MYSQL_RES) : world :=
  {| my_table := "docs";
     my_name_field := "id";
     my_data_field := "body";
     malloc_ok := alloc;
     mysql_query := server;
     getuid := 1000;
     getgid := 100 |}.

Definition docs_world : world := docs_world_with (fun _ => true) docs_query.

(** The same mount when only the first allocation of a callback succeeds,
    when none does, when the server is gone, and when the server answers
    the size query with a value that is no number. *)
Definition docs_world_one_block : world :=
  docs_world_with (fun k => (k =? 0)%nat) docs_query.

Definition docs_world_no_memory : world :=
  docs_world_with (fun _ => false) docs_query.

Definition docs_world_offline : world :=
  docs_world_with (fun _ => true) (fun _ => None).

Definition docs_world_garbled : world :=
  docs_world_with (fun _ => true) (fun _ => Some [[Some "abc"]]).

(** ** The three query shapes of the specification *)

Definition size_query (w : world) (key : string) : string :=
  "SELECT LENGTH(" ++ my_data_field w ++ ") FROM " ++ my_table w
  ++ " WHERE " ++ my_name_field w ++ " = " ++ key.

Definition exists_query (w : world) (key : string) : string :=
  "SELECT 1 FROM " ++ my_table w
  ++ " WHERE " ++ my_name_field w ++ " = " ++ key.

Definition content_query (w : world) (key : string) : string :=
  "SELECT " ++ my_data_field w ++ " FROM " ++ my_table w
  ++ " WHERE " ++ my_name_field w ++ " = " ++ key.

Definition listing_query (w : world) : string :=
  "SELECT " ++ my_name_field w ++ " FROM " ++ my_table w
  ++ " ORDER BY " ++ my_name_field w.

(** A path that names a row: "/" followed by the key, a non-empty string of
    decimal digits. *)
Definition row_path (path key : string) : Prop :=
  path = "/" ++ key /\ key <> "" /\ every_char decimal_digit key.

(** The metadata [my_getattr] stores for the root and for a row. *)
Definition directory_stat (w : world) : stat :=
  {| st_mode := Z.lor S_IFDIR (octal3 5 5 5);
     st_nlink := 2;
     st_size := 0;
     st_uid := getuid w;
     st_gid := getgid w |}.

Definition file_stat (w : world) (size : Z) : stat :=
  {| st_mode := Z.lor S_IFREG (octal3 5 5 5);
     st_nlink := 1;
     st_size := size;
     st_uid := getuid w;
     st_gid := getgid w |}.

(** The clamp law of the specification: the length of the window of a read
    at [offset] for [size] bytes in a content of [len] bytes, and the
    window. *)
Definition window_length (len size offset : Z) : Z :=
  if offset <=? len then Z.max 0 (Z.min size (len - offset)) else 0.

Definition window (content : string) (size offset : Z) : string :=
  substring (Z.to_nat offset)
    (Z.to_nat (window_length (Z.of_nat (strlen content)) size offset))
    content.

(** The first [n] allocations of a callback succeed. *)
Definition allocations_succeed (w : world) (n : nat) : Prop :=
  forall k, (k < n)%nat -> malloc_ok w k = true.

(** ** The callbacks of the older copy (src/myblobfs.c, lines 146-164 and
    276-501)

    The same query patterns and the same clamp; every failure is answered
    with [-ENOENT], by an early [return]. *)
Module LegacyDriver.

Definition is_valid_path (path : string) : my_bool :=
  if strcmp path "/" =? 0 then true
  else if negb (char_at path 0 =? "/")%char then false
  else if negb (Legacy.is_uint (ptr_succ path)) then false
  else true.

Definition my_readdir (w : world) (path : string) : list event * outcome Z :=
  if negb (strcmp path "/" =? 0) then ([], Ret (- ENOENT))
  else
    let dots := [Filler (Some "."); Filler (Some "..")] in
    let size := (strlen readdir_qp + strlen (my_name_field w)
                 + strlen (my_table w) + strlen (my_name_field w))%nat in
    match malloc w 0 size with
    | None => (dots ++ [Malloc size false], Ret (- ENOENT))%list
    | Some query_cap =>
        match write_str query_cap
                (sprintf readdir_qp [my_name_field w; my_table w;
                                     my_name_field w]) with
        | Fault => (dots ++ [Malloc size true], Fault)%list
        | Ret query =>
            match mysql_query w query with
            | None =>
                (dots ++ [Malloc size true; Query query], Ret (- ENOENT))%list
            | Some res =>
                let (names, r) := fill_rows res in
                (dots ++ [Malloc size true; Query query] ++ names,
                 _ <- r ;; Ret 0)%list
            end
        end
    end.

Definition my_open (w : world) (path : string) (flags : Z) : outcome Z :=
  if negb (is_valid_path path) then Ret (- ENOENT)
  else if negb (Z.land flags (c_eq O_RDONLY 0) =? 0) then Ret (- ENOENT)
  else if strcmp path "/" =? 0 then Ret 0
  else
    match malloc w 0 (strlen path + 1) with
    | None => Ret (- ENOENT)
    | Some filename_cap =>
        filename <- write_str filename_cap (ptr_succ path) ;;
        match malloc w 1 (strlen read_qp + 1 + strlen (my_table w)
                          + strlen (my_name_field w) + strlen filename) with
        | None => Ret (- ENOENT)
        | Some query_cap =>
            query <-
              write_str query_cap
                (sprintf read_qp ["1"; my_table w; my_name_field w;
                                  filename]) ;;
            match mysql_query w query with
            | None => Ret (- ENOENT)
            | Some res =>
                match mysql_fetch_row res with
                | None => Ret (- ENOENT)
                | Some _ => Ret 0
                end
            end
        end
    end.

Definition my_read (w : world) (path : string) (size offset : Z)
  : outcome (Z * string) :=
  if negb (is_valid_path path) then Ret (- ENOENT, "")
  else if strcmp path "/" =? 0 then Ret (- ENOENT, "")
  else
    match malloc w 0 (strlen path + 1) with
    | None => Ret (- ENOENT, "")
    | Some filename_cap =>
        filename <- write_str filename_cap (ptr_succ path) ;;
        match malloc w 1 (strlen read_qp + strlen (my_data_field w)
                          + strlen (my_table w) + strlen (my_name_field w)
                          + strlen filename) with
        | None => Ret (- ENOENT, "")
        | Some query_cap =>
            query <-
              write_str query_cap
                (sprintf read_qp [my_data_field w; my_table w;
                                  my_name_field w; filename]) ;;
            match mysql_query w query with
            | None => Ret (- ENOENT, "")
            | Some res =>
                match mysql_fetch_row res with
                | Some row =>
                    v <- row_col row 0 ;;
                    let len := field_length v in
                    if to_ulong offset <=? len then
                      let size :=
                        if to_ulong (to_ulong offset + size) >? len
                        then to_ulong (len - to_ulong offset)
                        else size in
                      copied <- memcpy v offset size ;;
                      Ret (to_int size, copied)
                    else Ret (to_int 0, "")
                | None => Ret (to_int (to_ulong (- ENOENT)), "")
                end
            end
        end
    end.

End LegacyDriver.

(** ** main (src/src/myblobfs.c, lines 611-781)

    The options as [fuse_opt_parse] leaves them (a string option that was
    not given stays NULL, [port] and [rq_password] stay 0). *)
Record options : Type := {
  hostname : option string;
  port : Z;
  username : option string;
  rq_password : Z;
  database : option string;
  table : option string;
  name_field : option string;
  data_field : option string
}.

(** What [main] meets: the parse of the command line ([None] when
    [fuse_opt_parse] returns -1), its three allocations, the password typed
    at the prompt ([None] when [getpass] returns NULL), the connection
    ([None] when [mysql_real_connect] succeeds, else the text of
    [mysql_error]) and the value [fuse_main] returns when the mount ends. *)
Record startup : Type := {
  fuse_opt_parse : option options;
  startup_malloc_ok : nat -> bool;
  getpass : option string;
  connect_error : option string;
  fuse_main : Z
}.

(** What [main] does, in order: the lines it prints, the prompt, the
    connection it asks for and the mount it serves, with the three globals
    as the callbacks will read them. *)
Inductive main_event : Type :=
| Puts (line : string)
| GetPass
| Connect (host user password : option string) (db : string) (port : Z)
| FuseMain (tbl name data : string).

Definition is_null {A : Type} (p : option A) : bool :=
  match p with
  | Some _ => false
  | None => true
  end.

(** The checks of the three identifiers, from the first [is_valid_ident]
    test to the call of [fuse_main]; the first test on the table comes
    before [error = 0]. *)
Definition check_and_mount (s : startup) (tbl name data : string)
  : list main_event :=
  let out := if negb (is_valid_ident tbl)
             then [Puts "Error: Illegal characters in table name identifier"]
             else [] in
  let error := 0 in
  let (out, error) :=
    if negb (is_valid_ident tbl)
    then ((out ++ [Puts "Error: Illegal characters in table name identifier"])%list, 1)
    else (out, error) in
  let (out, error) :=
    if negb (is_valid_ident name)
    then ((out ++ [Puts "Error: Illegal characters in name field identifier"])%list, 1)
    else (out, error) in
  let (out, error) :=
    if negb (is_valid_ident data)
    then ((out ++ [Puts "Error: Illegal characters in data field identifier"])%list, 1)
    else (out, error) in
  if error =? 0 then
    (out ++ FuseMain tbl name data
         :: (if negb (fuse_main s =? 0) then [Puts ""] else []))%list
  else out.

(** The events of [main] and its exit status.  The blocks for the three
    globals have [strlen + 1] bytes, what [strcpy] needs. *)
Definition main (s : startup) : list main_event * Z :=
  match fuse_opt_parse s with
  | None => ([], 0)
  | Some opts =>
      (match database opts with
       | Some db =>
           match table opts with
           | Some tbl =>
               match name_field opts with
               | Some name =>
                   match data_field opts with
                   | Some data =>
                       if startup_malloc_ok s 0 then
                         if startup_malloc_ok s 1 then
                           if startup_malloc_ok s 2 then
                             let port :=
                               if port opts =? 0 then 3306 else port opts in
                             let asked := negb (rq_password opts =? 0) in
                             let password :=
                               if asked then getpass s else None in
                             let prompt :=
                               if asked then [GetPass] else [] in
                             if negb asked || negb (is_null password) then
                               (prompt
                                ++ Connect (hostname opts) (username opts)
                                     password db port
                                :: match connect_error s with
                                   | None => check_and_mount s tbl name data
                                   | Some text => [Puts text]
                                   end)%list
                             else prompt
                           else [Puts "Out of memory"]
                         else [Puts "Out of memory"]
                       else [Puts "Out of memory"]
                   | None => [Puts "Name field must be specified"]
                   end
               | None => [Puts "Date field must be specified"]
               end
           | None => [Puts "Table name must be specified"]
           end
       | None => [Puts "Database name must be specified"]
       end, 0)
  end.

(** The decimal text of a number, as the server writes a length. *)
Definition decimal (n : Z) : string :=
  NilZero.string_of_uint (N.to_uint (Z.to_N n)).

(** The start of the scenario: [--database=test --table=docs
    --name-field=id --data-field=body], no password. *)
Definition docs_options : options :=
  {| hostname := None;
     port := 0;
     username := None;
     rq_password := 0;
     database := Some "test";
     table := Some "docs";
     name_field := Some "id";
     data_field := Some "body" |}.

Definition docs_startup : startup :=
  {| fuse_opt_parse := Some docs_options;
     startup_malloc_ok := fun _ => true;
     getpass := None;
     connect_error := None;
     fuse_main := 0 |}.

(** ** What a callback makes of the answer of the server

    The part of [my_getattr], [my_open] and [my_read] that follows
    [mysql_use_result], as a function of what it returned. *)
Definition getattr_answer (w : world) (answer : option MYSQL_RES)
  : outcome (Z * stat) :=
  match answer with
  | Some res =>
      match mysql_fetch_row res with
      | Some row =>
          v <- row_col row 0 ;;
          size <- atoi_field v ;;
          Ret (0, file_stat w size)
      | None => Ret (- ENOENT, stat_zero)
      end
  | None => Ret (- ENOENT, stat_zero)
  end.

Definition open_answer (answer : option MYSQL_RES) : outcome Z :=
  match answer with
  | Some res =>
      match mysql_fetch_row res with
      | None => Ret (- ENOENT)
      | Some _ => Ret 0
      end
  | None => Ret (- EAGAIN)
  end.

Definition read_rows (res : MYSQL_RES) (size offset : Z)
  : outcome (Z * string) :=
  match mysql_fetch_row res with
  | Some row =>
      v <- row_col row 0 ;;
      let len := field_length v in
      if to_ulong offset <=? len then
        let size :=
          if to_ulong (to_ulong offset + size) >? len
          then to_ulong (len - to_ulong offset)
          else size in
        copied <- memcpy v offset size ;;
        Ret (to_int size, copied)
      else Ret (to_int 0, "")
  | None => Ret (- ENOENT, "")
  end.

(** The same world with another server. *)
Definition with_server (w : world) (server : string -> option MYSQL_RES)
  : world :=
  {| my_table := my_table w;
     my_name_field := my_name_field w;
     my_data_field := my_data_field w;
     malloc_ok := malloc_ok w;
     mysql_query := server;
     getuid := getuid w;
     getgid := getgid w |}.

(** The older callbacks answer every failure with [-ENOENT]. *)
Definition as_legacy_code (c : Z) : Z := if c =? 0 then 0 else - ENOENT.

(** The same start without [--name-field], with the third block refused,
    and with a server that refuses the connection. *)
Definition docs_startup_no_name_field : startup :=
  {| fuse_opt_parse :=
       Some {| hostname := None; port := 0; username := None;
               rq_password := 0; database := Some "test";
               table := Some "docs"; name_field := None;
               data_field := Some "body" |};
     startup_malloc_ok := fun _ => true;
     getpass := None;
     connect_error := None;
     fuse_main := 0 |}.



(** * Properties *)

(** ** The C library *)

Lemma strcmp_refl (a : string) : strcmp a a = 0.
Proof.
  induction a as [|c a IH]; simpl; [reflexivity|].
  now rewrite Ascii.eqb_refl.
Qed.

Lemma strcmp_zero_iff (a b : string) : strcmp a b = 0 <-> a = b.
Proof.
  split; [|intros ->; apply strcmp_refl].
  revert b; induction a as [|c a IH]; intros [|d b]; simpl; try discriminate;
    [reflexivity|].
  destruct (Ascii.eqb_spec c d) as [->|_].
  - intros H; f_equal; now apply IH.
  - destruct (code c <? code d); discriminate.
Qed.

Lemma strcmp_eqb (a b : string) : (strcmp a b =? 0) = (a =? b)%string.
Proof.
  destruct (String.eqb_spec a b) as [->|Hne].
  - now rewrite strcmp_refl.
  - apply Z.eqb_neq; intros H; apply Hne; now apply strcmp_zero_iff.
Qed.

Lemma isdigit_decimal (c : ascii) : isdigit c = true <-> decimal_digit c.
Proof.
  assert (E : isdigit c
              = existsb (Ascii.eqb c) (list_ascii_of_string "0123456789")).
  { destruct c as [[] [] [] [] [] [] [] []]; reflexivity. }
  rewrite E, existsb_exists; unfold decimal_digit; split.
  - intros [d [Hin Heq]]; apply Ascii.eqb_eq in Heq; now subst.
  - intros Hin; exists c; split; [assumption|apply Ascii.eqb_refl].
Qed.

Lemma isalnum_alphanumeric (c : ascii) : isalnum c = true <-> alphanumeric c.
Proof.
  assert (E : isalnum c
              = existsb (Ascii.eqb c)
                  (list_ascii_of_string
          "abcdefghijklmnopqrstuvwxyzABCDEFGHIJKLMNOPQRSTUVWXYZ0123456789")).
  { destruct c as [[] [] [] [] [] [] [] []]; vm_compute; reflexivity. }
  rewrite E, existsb_exists; unfold alphanumeric; split.
  - intros [d [Hin Heq]]; apply Ascii.eqb_eq in Heq; now subst.
  - intros Hin; exists c; split; [assumption|apply Ascii.eqb_refl].
Qed.

(** ** The scanning loop *)

Lemma scan_chars_tail reject c s i todo :
  scan_chars reject (String c s) (S i) todo = scan_chars reject s i todo.
Proof.
  revert i; induction todo as [|todo IH]; intros i; simpl; [reflexivity|].
  now rewrite IH.
Qed.

Lemma scan_chars_forallb reject s :
  scan_chars reject s 0 (strlen s)
  = forallb (fun c => negb (reject c)) (list_ascii_of_string s).
Proof.
  induction s as [|c s IH]; [reflexivity|].
  cbn [strlen String.length scan_chars list_ascii_of_string forallb].
  change (char_at (String c s) 0) with c.
  destruct (reject c); [reflexivity|].
  now rewrite scan_chars_tail.
Qed.

Lemma strlen_zero_iff s : (strlen s =? 0)%nat = true <-> s = "".
Proof.
  destruct s; simpl; split; congruence.
Qed.

Lemma scan_chars_every reject (P : ascii -> Prop) s :
  (forall c, reject c = false <-> P c) ->
  scan_chars reject s 0 (strlen s) = true <-> every_char P s.
Proof.
  intros HP; rewrite scan_chars_forallb, forallb_forall.
  unfold every_char; rewrite Forall_forall.
  split; intros H c Hc; specialize (H c Hc).
  - apply HP; now destruct (reject c).
  - apply HP in H; now rewrite H.
Qed.

(** ** Validators *)

(** C1: [is_valid_ident] accepts exactly the non-empty strings whose
    characters are all alphanumeric or the underscore. *)
Theorem is_valid_ident_spec (s : string) :
  is_valid_ident s = true
  <-> s <> "" /\ every_char (fun c => alphanumeric c \/ c = "_"%char) s.
Proof.
  unfold is_valid_ident.
  destruct (strlen s =? 0)%nat eqn:E.
  - apply strlen_zero_iff in E; subst; split; [discriminate|intros [H _]; now elim H].
  - assert (Hs : s <> "") by (intros ->; discriminate).
    rewrite (scan_chars_every _ (fun c => alphanumeric c \/ c = "_"%char)).
    + tauto.
    + intros c; rewrite <- isalnum_alphanumeric.
      destruct (isalnum c), (Ascii.eqb_spec c "_"); simpl; split;
        intros H; try reflexivity; try discriminate; auto.
      destruct H; [discriminate|contradiction].
Qed.

Lemma is_uint_true_iff (s : string) :
  is_uint s = true <-> s <> "" /\ every_char decimal_digit s.
Proof.
  unfold is_uint.
  destruct (strlen s =? 0)%nat eqn:E.
  - apply strlen_zero_iff in E; subst; split; [discriminate|intros [H _]; now elim H].
  - assert (Hs : s <> "") by (intros ->; discriminate).
    rewrite (scan_chars_every _ decimal_digit).
    + tauto.
    + intros c; rewrite <- isdigit_decimal.
      destruct (isdigit c); simpl; split; congruence.
Qed.

(** C2: [is_uint] accepts exactly the non-empty strings of decimal digits;
    it rejects "" and "12a" and accepts "007". *)
Theorem is_uint_spec :
  (forall s : string,
      is_uint s = true <-> s <> "" /\ every_char decimal_digit s)
  /\ is_uint "" = false
  /\ is_uint "12a" = false
  /\ is_uint "007" = true.
Proof.
  split; [exact is_uint_true_iff|repeat split; reflexivity].
Qed.

(** The older copy: [is_uint] lets the empty string through, and
    [is_valid_ident] rejects every character, so it accepts the empty string
    and nothing else. *)
Lemma legacy_is_uint_empty : Legacy.is_uint "" = true.
Proof. reflexivity. Qed.

Lemma legacy_is_valid_ident_iff (s : string) :
  Legacy.is_valid_ident s = true <-> s = "".
Proof.
  destruct s as [|c s]; [split; reflexivity|].
  split; [|discriminate].
  unfold Legacy.is_valid_ident; cbn [strlen String.length scan_chars].
  change (char_at (String c s) 0) with c.
  destruct (Ascii.eqb_spec c "_") as [->|_]; [discriminate|].
  rewrite orb_true_r; discriminate.
Qed.

(** ** Path classification *)

Lemma is_valid_path_true_iff (path : string) :
  is_valid_path path = true
  <-> path = "/" \/ exists key, path = String "/" key /\ is_uint key = true.
Proof.
  unfold is_valid_path; rewrite strcmp_eqb.
  destruct (String.eqb_spec path "/") as [->|Hne]; [tauto|].
  destruct path as [|c rest].
  - simpl; split; [discriminate|].
    intros [H|[key [H _]]]; discriminate.
  - change (char_at (String c rest) 0) with c; cbn [ptr_succ].
    destruct (Ascii.eqb_spec c "/") as [->|Hc]; cbn [negb].
    + destruct (is_uint rest) eqn:E; cbn [negb].
      * split; [|reflexivity].
        intros _; right; now exists rest.
      * split; [discriminate|].
        intros [H|[key [H Hk]]]; [contradiction|].
        injection H as ->; congruence.
    + split; [discriminate|].
      intros [H|[key [H _]]]; [contradiction|].
      injection H as -> _; now elim Hc.
Qed.

Lemma resolve_root_iff (path : string) :
  resolve path = RootDirectory <-> path = "/".
Proof.
  unfold resolve; split.
  - destruct (is_valid_path path); cbn [negb]; [|discriminate].
    rewrite strcmp_eqb.
    destruct (String.eqb_spec path "/"); [trivial|discriminate].
  - intros ->; reflexivity.
Qed.

Lemma resolve_row_key_iff (path key : string) :
  resolve path = RowKey key <-> row_path path key.
Proof.
  unfold resolve, row_path; rewrite <- is_uint_true_iff.
  destruct (is_valid_path path) eqn:V; cbn [negb].
  - rewrite strcmp_eqb.
    apply is_valid_path_true_iff in V.
    destruct (String.eqb_spec path "/") as [->|Hne].
    + split; [discriminate|]. intros [H U]. injection H as <-. discriminate.
    + destruct V as [->|[k [-> U]]]; [now elim Hne|].
      cbn [ptr_succ]; split.
      * intros H; injection H as ->; now split.
      * intros [H _]; injection H as ->; reflexivity.
  - split; [discriminate|].
    intros [-> U].
    assert (is_valid_path (String "/" key) = true)
      by (apply is_valid_path_true_iff; right; now exists key).
    change ("/" ++ key) with (String "/" key) in V; congruence.
Qed.

Lemma resolve_invalid_iff (path : string) :
  resolve path = Invalid
  <-> path <> "/" /\ ~ (exists key, row_path path key).
Proof.
  destruct (resolve path) eqn:R.
  - apply resolve_root_iff in R; subst.
    split; [discriminate|intros [H _]; now elim H].
  - apply resolve_row_key_iff in R.
    split; [discriminate|intros [_ H]; elim H; now exists digits].
  - split; [intros _|reflexivity].
    split.
    + intros H; apply resolve_root_iff in H; congruence.
    + intros [key H]; apply resolve_row_key_iff in H; congruence.
Qed.

(** C3: the classification is [RootDirectory] exactly for "/", [RowKey]
    exactly for "/" followed by one or more decimal digits, [Invalid] for
    every other path, among them "", "/abc", "/1/2" and "//1"; every path
    gets one of the three classes. *)
Theorem resolve_spec :
  (forall path, resolve path = RootDirectory <-> path = "/")
  /\ (forall path key, resolve path = RowKey key <-> row_path path key)
  /\ (forall path,
        resolve path = Invalid
        <-> path <> "/" /\ ~ (exists key, row_path path key))
  /\ resolve "" = Invalid
  /\ resolve "/abc" = Invalid
  /\ resolve "/1/2" = Invalid
  /\ resolve "//1" = Invalid
  /\ (forall path, exists class, resolve path = class).
Proof.
  split; [exact resolve_root_iff|].
  split; [exact resolve_row_key_iff|].
  split; [exact resolve_invalid_iff|].
  repeat split; try reflexivity.
  intros path; now exists (resolve path).
Qed.

(** ** Buffers and query texts *)

Lemma strlen_append (a b : string) :
  strlen (a ++ b) = (strlen a + strlen b)%nat.
Proof.
  unfold strlen; induction a as [|c a IH]; simpl; [reflexivity|].
  now rewrite IH.
Qed.

Lemma append_empty_r (a : string) : a ++ "" = a.
Proof.
  induction a as [|c a IH]; simpl; [reflexivity|now rewrite IH].
Qed.

Lemma append_assoc (a b c : string) : (a ++ b) ++ c = a ++ b ++ c.
Proof.
  induction a as [|x a IH]; simpl; [reflexivity|now rewrite IH].
Qed.

Lemma write_str_fits (cap : nat) (text : string) :
  (strlen text + 1 <= cap)%nat -> write_str cap text = Ret text.
Proof.
  intros H; unfold write_str.
  now apply Nat.leb_le in H; rewrite H.
Qed.

Ltac count_chars :=
  repeat (rewrite strlen_append || cbn [strlen String.length]); lia.

Lemma sprintf_size_fp (field : string) :
  sprintf size_fp [field] = "LENGTH(" ++ field ++ ")".
Proof. reflexivity. Qed.

Lemma sprintf_read_qp (what table name key : string) :
  sprintf read_qp [what; table; name; key]
  = "SELECT " ++ what ++ " FROM " ++ table ++ " WHERE " ++ name ++ " = " ++ key.
Proof.
  cbn [sprintf read_qp append]; now rewrite append_empty_r.
Qed.

Lemma sprintf_readdir_qp (name table : string) :
  sprintf readdir_qp [name; table; name]
  = "SELECT " ++ name ++ " FROM " ++ table ++ " ORDER BY " ++ name.
Proof.
  cbn [sprintf readdir_qp append]; now rewrite append_empty_r.
Qed.

Lemma size_query_text (w : world) (key : string) :
  sprintf read_qp [sprintf size_fp [my_data_field w]; my_table w;
                   my_name_field w; key]
  = size_query w key.
Proof.
  rewrite sprintf_read_qp, sprintf_size_fp; unfold size_query.
  cbn [append]; now rewrite append_assoc.
Qed.

(** Every block the callbacks allocate holds the text stored in it. *)
Lemma size_fp_fits (w : world) :
  write_str (strlen size_fp + strlen (my_data_field w) + 1)
    (sprintf size_fp [my_data_field w])
  = Ret (sprintf size_fp [my_data_field w]).
Proof.
  apply write_str_fits; rewrite sprintf_size_fp; unfold size_fp; count_chars.
Qed.

Lemma size_query_fits (w : world) (key : string) :
  write_str (strlen read_qp + strlen (sprintf size_fp [my_data_field w])
             + strlen (my_table w) + strlen (my_name_field w) + strlen key)
    (sprintf read_qp [sprintf size_fp [my_data_field w]; my_table w;
                      my_name_field w; key])
  = Ret (size_query w key).
Proof.
  rewrite size_query_text.
  apply write_str_fits; rewrite sprintf_size_fp; unfold size_query, read_qp.
  count_chars.
Qed.

Lemma exists_query_fits (w : world) (key : string) :
  write_str (strlen read_qp + 1 + strlen (my_table w)
             + strlen (my_name_field w) + strlen key)
    (sprintf read_qp ["1"; my_table w; my_name_field w; key])
  = Ret (exists_query w key).
Proof.
  rewrite sprintf_read_qp.
  apply write_str_fits; unfold exists_query, content_query, read_qp.
  count_chars.
Qed.

Lemma content_query_fits (w : world) (key : string) :
  write_str (strlen read_qp + strlen (my_data_field w) + strlen (my_table w)
             + strlen (my_name_field w) + strlen key + 1)
    (sprintf read_qp [my_data_field w; my_table w; my_name_field w; key])
  = Ret (content_query w key).
Proof.
  rewrite sprintf_read_qp.
  apply write_str_fits; unfold exists_query, content_query, read_qp.
  count_chars.
Qed.

Lemma listing_query_fits (w : world) :
  write_str (strlen readdir_qp + strlen (my_name_field w)
             + strlen (my_table w) + strlen (my_name_field w))
    (sprintf readdir_qp [my_name_field w; my_table w; my_name_field w])
  = Ret (listing_query w).
Proof.
  rewrite sprintf_readdir_qp.
  apply write_str_fits; unfold listing_query, readdir_qp; count_chars.
Qed.

(** ** The first two tests of a callback *)

Lemma resolve_invalid_path (path : string) :
  resolve path = Invalid -> is_valid_path path = false.
Proof.
  unfold resolve; destruct (is_valid_path path); cbn [negb]; [|reflexivity].
  destruct (strcmp path "/" =? 0); discriminate.
Qed.

Lemma row_path_tests (path key : string) :
  row_path path key ->
  is_valid_path path = true
  /\ (strcmp path "/" =? 0) = false
  /\ ptr_succ path = key
  /\ strlen path = S (strlen key).
Proof.
  intros H; pose proof H as [-> [Hne _]].
  apply resolve_row_key_iff in H; unfold resolve in H.
  destruct (is_valid_path ("/" ++ key)); cbn [negb] in H; [|discriminate].
  destruct (strcmp ("/" ++ key) "/" =? 0); [discriminate|].
  repeat split; reflexivity.
Qed.

Lemma malloc_block (w : world) (k size : nat) :
  malloc_ok w k = true -> malloc w k size = Some size.
Proof. intros H; unfold malloc; now rewrite H. Qed.

Lemma malloc_null (w : world) (k size : nat) :
  malloc_ok w k = false -> malloc w k size = None.
Proof. intros H; unfold malloc; now rewrite H. Qed.

(** ** Integer conversions *)

Lemma to_ulong_small (z : Z) : 0 <= z <= ULONG_MAX -> to_ulong z = z.
Proof.
  unfold ULONG_MAX, to_ulong, to_unsigned; intros H.
  apply Z.mod_small; lia.
Qed.

Lemma to_int_small (z : Z) : 0 <= z <= INT_MAX -> to_int z = z.
Proof.
  unfold INT_MAX, to_int, to_signed; intros H.
  rewrite Z.mod_small; simpl; lia.
Qed.

(** ** atoi *)

Lemma digits_value_ge (acc : Z) (s : string) :
  0 <= acc -> acc <= digits_value acc s.
Proof.
  revert acc; induction s as [|c s IH]; intros acc H; simpl; [lia|].
  destruct (isdigit c) eqn:D; [|lia].
  unfold isdigit in D; apply andb_true_iff in D as [D _].
  apply Z.leb_le in D.
  specialize (IH (acc * 10 + (code c - 48))); lia.
Qed.

Lemma isdigit_not_space_or_sign (c : ascii) :
  isdigit c = true ->
  isspace c = false /\ (c =? "-")%char = false /\ (c =? "+")%char = false.
Proof.
  unfold isdigit, isspace; intros D.
  apply andb_true_iff in D as [D1 D2].
  apply Z.leb_le in D1; apply Z.leb_le in D2.
  split; [|split].
  - apply orb_false_iff; split.
    + apply andb_false_iff; right; apply Z.leb_gt; lia.
    + apply Z.eqb_neq; lia.
  - apply Ascii.eqb_neq; intros ->; vm_compute in D1; now apply D1.
  - apply Ascii.eqb_neq; intros ->; vm_compute in D1; now apply D1.
Qed.

(** On a string of digits [atoi] is the decimal value, as long as that is
    an [int]. *)
Lemma atoi_decimal (v : string) :
  is_uint v = true ->
  digits_value 0 v <= INT_MAX ->
  atoi v = digits_value 0 v.
Proof.
  intros U B; apply is_uint_true_iff in U as [Hne D].
  destruct v as [|c s]; [now elim Hne|].
  inversion D as [|c' l Hc _]; subst.
  apply isdigit_decimal, isdigit_not_space_or_sign in Hc as (Sp & Mi & Pl).
  pose proof (digits_value_ge 0 (String c s)) as G.
  unfold atoi, strtol; cbn [skip_space]; rewrite Sp.
  change (char_at (String c s) 0) with c; rewrite Mi, Pl.
  unfold INT_MAX, LONG_MIN, LONG_MAX in *.
  rewrite Z.min_r, Z.max_r by lia.
  apply to_int_small; unfold INT_MAX; lia.
Qed.

(** ** my_getattr *)

Lemma my_getattr_invalid (w : world) (path : string) (stbuf : stat) :
  resolve path = Invalid -> my_getattr w path stbuf = Ret (- ENOENT, stbuf).
Proof.
  intros H; apply resolve_invalid_path in H.
  unfold my_getattr; now rewrite H.
Qed.

Lemma my_getattr_root (w : world) (path : string) (stbuf : stat) :
  resolve path = RootDirectory ->
  my_getattr w path stbuf = Ret (0, directory_stat w).
Proof.
  intros H; apply resolve_root_iff in H; subst; reflexivity.
Qed.

(** With its three blocks allocated, the callback comes down to the size
    query. *)
Lemma my_getattr_row (w : world) (path key : string) (stbuf : stat) :
  resolve path = RowKey key ->
  allocations_succeed w 3 ->
  my_getattr w path stbuf
  = match mysql_query w (size_query w key) with
    | Some res =>
        match mysql_fetch_row res with
        | Some row =>
            v <- row_col row 0 ;;
            size <- atoi_field v ;;
            Ret (0, file_stat w size)
        | None => Ret (- ENOENT, stat_zero)
        end
    | None => Ret (- ENOENT, stat_zero)
    end.
Proof.
  intros R A; apply resolve_row_key_iff, row_path_tests in R.
  destruct R as (V & S & P & L).
  unfold my_getattr; rewrite V, S, P; cbn [negb].
  rewrite (malloc_block w 0) by (apply A; lia).
  rewrite write_str_fits by lia; cbn [bind].
  rewrite (malloc_block w 1) by (apply A; lia).
  rewrite size_fp_fits; cbn [bind].
  rewrite (malloc_block w 2) by (apply A; lia).
  rewrite size_query_fits; cbn [bind].
  reflexivity.
Qed.

Lemma my_getattr_absent (w : world) (path key : string) (stbuf : stat) :
  resolve path = RowKey key ->
  allocations_succeed w 3 ->
  mysql_query w (size_query w key) = Some [] ->
  my_getattr w path stbuf = Ret (- ENOENT, stat_zero).
Proof.
  intros R A Q; rewrite (my_getattr_row w path key) by assumption.
  now rewrite Q.
Qed.

Lemma my_getattr_present (w : world) (path key v : string)
  (rest : MYSQL_ROW) (more : MYSQL_RES) (stbuf : stat) :
  resolve path = RowKey key ->
  allocations_succeed w 3 ->
  mysql_query w (size_query w key) = Some ((Some v :: rest) :: more) ->
  my_getattr w path stbuf = Ret (0, file_stat w (atoi v)).
Proof.
  intros R A Q; rewrite (my_getattr_row w path key) by assumption.
  now rewrite Q.
Qed.

Lemma docs_world_allocations (n : nat) : allocations_succeed docs_world n.
Proof. intros k _; reflexivity. Defined.

(** C5, as the code has it: [ENOENT] for an invalid path; for the root a
    directory with two links, mode r-xr-xr-x and the real user and group of
    the process; for a row key whose size query finds no row [ENOENT]; for
    a row key whose size query finds a row a regular file with one link,
    the length [atoi] reads from the value, mode r-xr-xr-x as well (not
    r--r--r--) and the real user and group of the process. *)
Theorem my_getattr_attributes (w : world) (path : string) (stbuf : stat) :
  (resolve path = Invalid ->
   my_getattr w path stbuf = Ret (- ENOENT, stbuf))
  /\ (resolve path = RootDirectory ->
      my_getattr w path stbuf = Ret (0, directory_stat w))
  /\ (forall key,
        resolve path = RowKey key ->
        allocations_succeed w 3 ->
        mysql_query w (size_query w key) = Some [] ->
        my_getattr w path stbuf = Ret (- ENOENT, stat_zero))
  /\ (forall key v rest more,
        resolve path = RowKey key ->
        allocations_succeed w 3 ->
        mysql_query w (size_query w key) = Some ((Some v :: rest) :: more) ->
        my_getattr w path stbuf = Ret (0, file_stat w (atoi v)))
  /\ (file_type (st_mode (directory_stat w)) = S_IFDIR
      /\ permissions (st_mode (directory_stat w)) = read_execute_for_all
      /\ st_nlink (directory_stat w) = 2
      /\ st_uid (directory_stat w) = getuid w
      /\ st_gid (directory_stat w) = getgid w)
  /\ (forall size,
        file_type (st_mode (file_stat w size)) = S_IFREG
        /\ permissions (st_mode (file_stat w size)) = read_execute_for_all
        /\ st_nlink (file_stat w size) = 1
        /\ st_size (file_stat w size) = size
        /\ st_uid (file_stat w size) = getuid w
        /\ st_gid (file_stat w size) = getgid w).
Proof.
  split; [apply my_getattr_invalid|].
  split; [apply my_getattr_root|].
  split; [intros key; apply my_getattr_absent|].
  split; [intros key v rest more; apply my_getattr_present|].
  split; [|intros size]; repeat split; reflexivity.
Qed.

Lemma my_getattr_attributes_witness :
  my_getattr docs_world "/1/2" stat_zero = Ret (- ENOENT, stat_zero)
  /\ my_getattr docs_world "/" stat_zero = Ret (0, directory_stat docs_world)
  /\ my_getattr docs_world "/9" stat_zero = Ret (- ENOENT, stat_zero)
  /\ my_getattr docs_world "/1" stat_zero = Ret (0, file_stat docs_world 5).
Proof.
  destruct (my_getattr_attributes docs_world "/1/2" stat_zero) as (H & _).
  destruct (my_getattr_attributes docs_world "/" stat_zero) as (_ & H0 & _).
  destruct (my_getattr_attributes docs_world "/9" stat_zero)
    as (_ & _ & H1 & _).
  destruct (my_getattr_attributes docs_world "/1" stat_zero)
    as (_ & _ & _ & H2 & _).
  split; [apply H; reflexivity|].
  split; [apply H0; reflexivity|].
  split; [apply (H1 "9");
          [reflexivity|apply docs_world_allocations|reflexivity]|].
  apply (H2 "1" "5" [] []);
    [reflexivity|apply docs_world_allocations|reflexivity].
Defined.

(** The claim C5 asks r--r--r-- of a row's file; the file of the row of the
    scenario is r-xr-xr-x. *)
Lemma my_getattr_file_mode_not_read_only :
  my_getattr docs_world "/1" stat_zero = Ret (0, file_stat docs_world 5)
  /\ file_type (st_mode (file_stat docs_world 5)) = S_IFREG
  /\ permissions (st_mode (file_stat docs_world 5)) = read_execute_for_all
  /\ permissions (st_mode (file_stat docs_world 5)) <> read_only_for_all.
Proof.
  repeat split; try reflexivity.
  discriminate.
Qed.

(** C8, as the code has it: when the size query finds a row whose value is
    not a number, the call still succeeds and reports a regular file, with
    the length [atoi] makes of the value. *)
Theorem my_getattr_malformed_length (w : world) (path key v : string)
  (rest : MYSQL_ROW) (more : MYSQL_RES) (stbuf : stat) :
  resolve path = RowKey key ->
  allocations_succeed w 3 ->
  mysql_query w (size_query w key) = Some ((Some v :: rest) :: more) ->
  is_uint v = false ->
  my_getattr w path stbuf = Ret (0, file_stat w (atoi v))
  /\ file_type (st_mode (file_stat w (atoi v))) = S_IFREG
  /\ st_size (file_stat w (atoi v)) = atoi v.
Proof.
  intros R A Q _; split; [|split; reflexivity].
  now apply (my_getattr_present w path key v rest more).
Qed.

Lemma my_getattr_malformed_length_witness :
  my_getattr docs_world_garbled "/1" stat_zero
  = Ret (0, file_stat docs_world_garbled (atoi "abc"))
  /\ file_type (st_mode (file_stat docs_world_garbled (atoi "abc"))) = S_IFREG
  /\ st_size (file_stat docs_world_garbled (atoi "abc")) = atoi "abc".
Proof.
  apply (my_getattr_malformed_length docs_world_garbled "/1" "1" "abc" [] []).
  - reflexivity.
  - intros k _; reflexivity.
  - reflexivity.
  - reflexivity.
Defined.

(** The claim C8 asks [ENOENT] for a value that is no number; for the value
    "abc" the call returns 0 and a regular file of length 0. *)
Lemma my_getattr_malformed_length_not_absent :
  mysql_query docs_world_garbled (size_query docs_world_garbled "1")
  = Some [[Some "abc"]]
  /\ is_uint "abc" = false
  /\ my_getattr docs_world_garbled "/1" stat_zero
     = Ret (0, file_stat docs_world_garbled 0)
  /\ my_getattr docs_world_garbled "/1" stat_zero
     <> Ret (- ENOENT, stat_zero).
Proof.
  repeat split; try reflexivity.
  discriminate.
Qed.

(** A row whose length is NULL (the length of a NULL value) is handed to
    [atoi] as it is. *)
Lemma my_getattr_null_length (w : world) (path key : string)
  (rest : MYSQL_ROW) (more : MYSQL_RES) (stbuf : stat) :
  resolve path = RowKey key ->
  allocations_succeed w 3 ->
  mysql_query w (size_query w key) = Some ((None :: rest) :: more) ->
  my_getattr w path stbuf = Fault.
Proof.
  intros R A Q; rewrite (my_getattr_row w path key) by assumption.
  now rewrite Q.
Qed.

(** The branch taken when the second block is refused. *)
Lemma my_getattr_second_block_refused (w : world) (path key : string)
  (stbuf : stat) :
  resolve path = RowKey key ->
  malloc_ok w 0 = true ->
  malloc_ok w 1 = false ->
  my_getattr w path stbuf = Ret (ENOENT, stat_zero).
Proof.
  intros R M0 M1; apply resolve_row_key_iff, row_path_tests in R.
  destruct R as (V & S & P & L).
  unfold my_getattr; rewrite V, S, P; cbn [negb].
  rewrite (malloc_block w 0) by assumption.
  rewrite write_str_fits by lia; cbn [bind].
  now rewrite (malloc_null w 1).
Qed.

(** C9 fails in [my_getattr]: when the block for the [LENGTH(...)] text is
    refused, the call returns [ENOENT], a positive value, where the
    branches around it return [-ENOENT]. *)
Theorem my_getattr_positive_errno :
  malloc_ok docs_world_one_block 0 = true
  /\ malloc_ok docs_world_one_block 1 = false
  /\ my_getattr docs_world_one_block "/1" stat_zero = Ret (ENOENT, stat_zero)
  /\ 0 < ENOENT.
Proof.
  repeat split; reflexivity.
Qed.

(** ** my_open *)

Lemma low_bit_of_access_mode (flags : Z) :
  Z.land flags 1 = Z.land (access_mode flags) 1.
Proof.
  unfold access_mode, O_ACCMODE; now rewrite <- Z.land_assoc.
Qed.

Lemma my_open_write_only_refused (w : world) (path : string) (flags : Z) :
  is_valid_path path = true ->
  access_mode flags = O_WRONLY ->
  my_open w path flags = Ret (- EROFS).
Proof.
  intros V M; unfold my_open; rewrite V; cbn [negb].
  change (c_eq O_RDONLY 0) with 1.
  now rewrite low_bit_of_access_mode, M.
Qed.

Lemma my_open_read_only_not_refused (w : world) (path : string) (flags : Z) :
  access_mode flags = O_RDONLY ->
  my_open w path flags <> Ret (- EROFS).
Proof.
  intros M; unfold my_open.
  change (c_eq O_RDONLY 0) with 1.
  rewrite low_bit_of_access_mode, M; cbn [Z.land Z.eqb negb O_RDONLY].
  destruct (is_valid_path path); cbn [negb]; [|discriminate].
  destruct (strcmp path "/" =? 0); [discriminate|].
  destruct (malloc w 0 _); [|discriminate].
  destruct (write_str _ _); cbn [bind]; [|discriminate].
  destruct (malloc w 1 _); [|discriminate].
  destruct (write_str _ _); cbn [bind]; [|discriminate].
  destruct (mysql_query w _) as [res|]; [|discriminate].
  destruct (mysql_fetch_row res); discriminate.
Qed.

(** C7 fails for read-write opens: the test on the flags is
    [flags & (O_RDONLY == 0)], the lowest bit of the flags, which is set in
    [O_WRONLY] and clear in [O_RDWR]; an open of the root, or of the row of
    the scenario, for reading and writing returns 0. *)
Theorem my_open_read_write_not_refused :
  access_mode O_RDWR = O_RDWR
  /\ (forall w, my_open w "/" O_RDWR = Ret 0)
  /\ my_open docs_world "/1" O_RDWR = Ret 0
  /\ my_open docs_world "/1" O_RDWR <> Ret (- EROFS)
  /\ my_open docs_world "/1" O_WRONLY = Ret (- EROFS).
Proof.
  repeat split; try reflexivity.
  discriminate.
Qed.

(** ** my_read *)

Lemma my_read_invalid (w : world) (path : string) (size offset : Z) :
  resolve path = Invalid -> my_read w path size offset = Ret (- ENOENT, "").
Proof.
  intros H; apply resolve_invalid_path in H.
  unfold my_read; now rewrite H.
Qed.

Lemma my_read_root (w : world) (path : string) (size offset : Z) :
  resolve path = RootDirectory ->
  my_read w path size offset = Ret (- EISDIR, "").
Proof.
  intros H; apply resolve_root_iff in H; subst; reflexivity.
Qed.

(** An error code stored in the [size_t] comes back unchanged through the
    conversion to [int]. *)
Lemma errno_through_size_t :
  to_int (to_ulong (- ENOENT)) = - ENOENT
  /\ to_int (to_ulong (- ENOMEM)) = - ENOMEM.
Proof. split; reflexivity. Qed.

(** With its two blocks allocated, the callback comes down to the content
    query. *)
Lemma my_read_row (w : world) (path key : string) (size offset : Z) :
  resolve path = RowKey key ->
  allocations_succeed w 2 ->
  my_read w path size offset
  = match mysql_query w (content_query w key) with
    | Some res =>
        match mysql_fetch_row res with
        | Some row =>
            v <- row_col row 0 ;;
            let len := field_length v in
            if to_ulong offset <=? len then
              let size :=
                if to_ulong (to_ulong offset + size) >? len
                then to_ulong (len - to_ulong offset)
                else size in
              copied <- memcpy v offset size ;;
              Ret (to_int size, copied)
            else Ret (to_int 0, "")
        | None => Ret (- ENOENT, "")
        end
    | None => Ret (- ENOMEM, "")
    end.
Proof.
  intros R A; apply resolve_row_key_iff, row_path_tests in R.
  destruct R as (V & S & P & L).
  unfold my_read; rewrite V, S, P; cbn [negb].
  rewrite (malloc_block w 0) by (apply A; lia).
  rewrite write_str_fits by lia; cbn [bind].
  rewrite (malloc_block w 1) by (apply A; lia).
  rewrite content_query_fits; cbn [bind].
  reflexivity.
Qed.

(** C6: [my_read] returns [-ENOENT] for an invalid path, [-EISDIR] for the
    root, and [-ENOENT] for a row key whose content query finds no row. *)
Theorem my_read_errors (w : world) (path : string) (size offset : Z) :
  (resolve path = Invalid ->
   my_read w path size offset = Ret (- ENOENT, ""))
  /\ (resolve path = RootDirectory ->
      my_read w path size offset = Ret (- EISDIR, ""))
  /\ (forall key,
        resolve path = RowKey key ->
        allocations_succeed w 2 ->
        mysql_query w (content_query w key) = Some [] ->
        my_read w path size offset = Ret (- ENOENT, "")).
Proof.
  split; [apply my_read_invalid|].
  split; [apply my_read_root|].
  intros key R A Q.
  rewrite (my_read_row w path key) by assumption.
  now rewrite Q.
Qed.

Lemma my_read_errors_witness :
  my_read docs_world "/abc" 1 0 = Ret (- ENOENT, "")
  /\ my_read docs_world "/" 1 0 = Ret (- EISDIR, "")
  /\ my_read docs_world "/9" 1 0 = Ret (- ENOENT, "").
Proof.
  destruct (my_read_errors docs_world "/abc" 1 0) as (H & _).
  destruct (my_read_errors docs_world "/" 1 0) as (_ & H0 & _).
  destruct (my_read_errors docs_world "/9" 1 0) as (_ & _ & H1).
  split; [apply H; reflexivity|].
  split; [apply H0; reflexivity|].
  apply (H1 "9"); [reflexivity|apply docs_world_allocations|reflexivity].
Defined.

(** *** The window of a read *)

Lemma substring_none (from : nat) (s : string) : substring from 0 s = "".
Proof.
  revert from; induction s as [|c s IH]; intros [|from]; simpl; auto.
Qed.

Lemma strlen_substring (s : string) (from n : nat) :
  (from + n <= strlen s)%nat -> strlen (substring from n s) = n.
Proof.
  unfold strlen; revert from n.
  induction s as [|c s IH]; intros [|from] [|n]; simpl; intros H;
    try reflexivity; try lia.
  - f_equal; apply (IH 0%nat n); lia.
  - apply (IH from 0%nat); lia.
  - apply (IH from (S n)); lia.
Qed.

Lemma window_length_bounds (len size offset : Z) :
  0 <= len -> 0 <= offset -> 0 <= size ->
  0 <= window_length len size offset <= size
  /\ (offset <= len -> offset + window_length len size offset <= len).
Proof.
  unfold window_length; intros Hl Ho Hs.
  destruct (Z.leb_spec offset len); lia.
Qed.

(** In range, the code's clamp is the [window_length] of the
    specification. *)
Lemma clamp_in_range (len size offset : Z) :
  0 <= len -> 0 <= offset -> 0 <= size -> offset + size <= ULONG_MAX ->
  to_ulong offset <= len ->
  (if to_ulong (to_ulong offset + size) >? len
   then to_ulong (len - to_ulong offset)
   else size)
  = window_length len size offset.
Proof.
  intros Hl Ho Hs Hsum; rewrite (to_ulong_small offset) by lia; intros Hle.
  rewrite (to_ulong_small (offset + size)) by lia.
  unfold window_length.
  destruct (Z.leb_spec offset len); [|lia].
  rewrite Z.gtb_ltb.
  destruct (Z.ltb_spec len (offset + size)).
  - rewrite to_ulong_small by lia; lia.
  - lia.
Qed.

(** C4, as the code has it: for a row with content of length [len] and a
    read with [0 <= offset], [0 <= size] and [offset + size] below 2^64,
    the bytes copied are those of the content from [offset] on, as many as
    [max 0 (min size (len - offset))] when [offset <= len] and none when
    [offset > len]; the copy never goes past the end of the content, and
    the [int] returned is the number of bytes copied whenever that number
    is an [int]. *)
Theorem my_read_window (w : world) (path key content : string)
  (rest : MYSQL_ROW) (more : MYSQL_RES) (size offset : Z) :
  resolve path = RowKey key ->
  allocations_succeed w 2 ->
  mysql_query w (content_query w key)
  = Some ((Some content :: rest) :: more) ->
  0 <= offset -> 0 <= size -> offset + size <= ULONG_MAX ->
  let len := Z.of_nat (strlen content) in
  let n := window_length len size offset in
  my_read w path size offset = Ret (to_int n, window content size offset)
  /\ Z.of_nat (strlen (window content size offset)) = n
  /\ (forall i, (i < Z.to_nat n)%nat ->
        get i (window content size offset)
        = get (i + Z.to_nat offset) content)
  /\ (offset <= len ->
        n = Z.max 0 (Z.min size (len - offset)) /\ offset + n <= len)
  /\ (len < offset -> n = 0)
  /\ (n <= INT_MAX -> to_int n = n).
Proof.
  intros R A Q Ho Hs Hsum len n.
  assert (Hl : 0 <= len) by (subst len; lia).
  destruct (window_length_bounds len size offset Hl Ho Hs) as [Hn Hend].
  fold n in Hn, Hend.
  split; [|split; [|split; [|split; [|split]]]].
  - rewrite (my_read_row w path key) by assumption.
    rewrite Q; cbn [mysql_fetch_row row_col nth_error bind field_length].
    fold len; unfold window; fold len; fold n.
    destruct (Z.leb_spec (to_ulong offset) len) as [Hle|Hgt].
    + cbv zeta; rewrite clamp_in_range by assumption; fold n.
      rewrite to_ulong_small in Hle by lia.
      unfold memcpy.
      destruct (Z.eqb_spec n 0) as [E|E]; cbn [bind].
      * now rewrite E, substring_none.
      * fold len.
        replace ((0 <=? offset) && (offset + n <=? len)) with true; [reflexivity|].
        symmetry; apply andb_true_iff; split; apply Z.leb_le; lia.
    + rewrite to_ulong_small in Hgt by lia.
      assert (E : n = 0)
        by (subst n; unfold window_length;
            destruct (Z.leb_spec offset len); lia).
      now rewrite E, substring_none.
  - unfold window; fold len; fold n.
    destruct (Z.leb_spec offset len) as [Hle|Hgt].
    + rewrite strlen_substring; [lia|].
      specialize (Hend Hle); subst len; lia.
    + assert (E : n = 0)
        by (subst n; unfold window_length;
            destruct (Z.leb_spec offset len); lia).
      now rewrite E, substring_none.
  - intros i Hi; unfold window; fold len; fold n.
    now apply substring_correct1.
  - intros Hle; split; [|auto].
    subst n; unfold window_length.
    destruct (Z.leb_spec offset len); [reflexivity|lia].
  - intros Hgt; subst n; unfold window_length.
    destruct (Z.leb_spec offset len); [lia|reflexivity].
  - intros Hi; apply to_int_small; lia.
Qed.

Lemma my_read_window_witness :
  my_read docs_world "/1" 10 0 = Ret (5, "hello")
  /\ my_read docs_world "/1" 2 1 = Ret (2, "el")
  /\ my_read docs_world "/1" 5 10 = Ret (0, "").
Proof.
  split; [|split].
  - apply (my_read_window docs_world "/1" "1" "hello" [] [] 10 0);
      [reflexivity|apply docs_world_allocations|reflexivity|lia|lia
      |unfold ULONG_MAX; lia].
  - apply (my_read_window docs_world "/1" "1" "hello" [] [] 2 1);
      [reflexivity|apply docs_world_allocations|reflexivity|lia|lia
      |unfold ULONG_MAX; lia].
  - apply (my_read_window docs_world "/1" "1" "hello" [] [] 5 10);
      [reflexivity|apply docs_world_allocations|reflexivity|lia|lia
      |unfold ULONG_MAX; lia].
Defined.

(** The claim C4 at a size whose sum with the offset passes 2^64: the
    content is "hello", the read starts at byte 1 and asks for 2^64 - 1
    bytes.  The law gives the four bytes "ello"; in the code the sum wraps
    to 0, nothing is clamped and [memcpy] is asked for 2^64 - 1 bytes of a
    value that has five. *)
Lemma my_read_window_wraps :
  mysql_query docs_world (content_query docs_world "1")
  = Some [[Some "hello"]]
  /\ 1 <= Z.of_nat (strlen "hello")
  /\ window_length (Z.of_nat (strlen "hello")) ULONG_MAX 1 = 4
  /\ window "hello" ULONG_MAX 1 = "ello"
  /\ to_ulong (to_ulong 1 + ULONG_MAX) = 0
  /\ my_read docs_world "/1" ULONG_MAX 1 = Fault
  /\ my_read docs_world "/1" ULONG_MAX 1 <> Ret (4, "ello").
Proof.
  repeat split; try (vm_compute; congruence).
Qed.

(** ** my_readdir *)

Lemma my_readdir_other_path (w : world) (path : string) :
  path <> "/" -> my_readdir w path = ([], Ret (- ENOENT)).
Proof.
  intros H; unfold my_readdir; rewrite strcmp_eqb.
  now destruct (String.eqb_spec path "/").
Qed.

(** C10: on "/", [my_readdir] has handed "." and ".." to [filler] before it
    allocates the buffer of the query, hence before the query is built and
    run; the two entries are delivered when the allocation fails (result
    [-ENOMEM]) and when the query fails (result [-ENOENT]). *)
Theorem my_readdir_dots_first (w : world) :
  (exists size calls result,
      my_readdir w "/"
      = (Filler (Some ".") :: Filler (Some "..")
           :: Malloc size (malloc_ok w 0) :: calls, result)
      /\ (malloc_ok w 0 = false -> calls = [] /\ result = Ret (- ENOMEM))
      /\ (malloc_ok w 0 = true ->
          mysql_query w (listing_query w) = None ->
          calls = [Query (listing_query w)] /\ result = Ret (- ENOENT))
      /\ (malloc_ok w 0 = true ->
          exists names, calls = Query (listing_query w) :: names)).
Proof.
  unfold my_readdir; rewrite strcmp_refl; cbn [Z.eqb negb].
  cbv zeta; unfold malloc.
  destruct (malloc_ok w 0) eqn:M.
  - rewrite listing_query_fits.
    destruct (mysql_query w (listing_query w)) as [res|] eqn:Q.
    + destruct (fill_rows res) as [names r].
      eexists _, _, _; split; [reflexivity|].
      split; [discriminate|].
      split; [discriminate|].
      intros _; now exists names.
    + eexists _, _, _; split; [reflexivity|].
      split; [discriminate|].
      split; [now split|].
      intros _; now exists [].
  - eexists _, _, _; split; [reflexivity|].
    split; [now split|].
    split; discriminate.
Qed.

Lemma my_readdir_dots_first_witness :
  (exists size calls result,
      my_readdir docs_world_no_memory "/"
      = (Filler (Some ".") :: Filler (Some "..")
           :: Malloc size false :: calls, result)
      /\ calls = [] /\ result = Ret (- ENOMEM))
  /\ (exists size calls result,
        my_readdir docs_world_offline "/"
        = (Filler (Some ".") :: Filler (Some "..")
             :: Malloc size true :: calls, result)
        /\ calls = [Query "SELECT id FROM docs ORDER BY id"]
        /\ result = Ret (- ENOENT)).
Proof.
  split.
  - destruct (my_readdir_dots_first docs_world_no_memory)
      as (size & calls & result & E & H & _).
    exists size, calls, result; split; [exact E|].
    apply H; reflexivity.
  - destruct (my_readdir_dots_first docs_world_offline)
      as (size & calls & result & E & _ & H & _).
    exists size, calls, result; split; [exact E|].
    apply H; reflexivity.
Defined.

(** The listing of the scenario, and the same listing when the allocation
    or the server fails. *)
Example my_readdir_scenario :
  my_readdir docs_world "/"
  = ([Filler (Some "."); Filler (Some ".."); Malloc 37 true;
      Query "SELECT id FROM docs ORDER BY id"; Filler (Some "1")], Ret 0)
  /\ my_readdir docs_world_no_memory "/"
     = ([Filler (Some "."); Filler (Some ".."); Malloc 37 false],
        Ret (- ENOMEM))
  /\ my_readdir docs_world_offline "/"
     = ([Filler (Some "."); Filler (Some ".."); Malloc 37 true;
         Query "SELECT id FROM docs ORDER BY id"], Ret (- ENOENT)).
Proof. repeat split. Qed.

(** The rest of the scenario of the specification. *)
Example docs_scenario :
  my_getattr docs_world "/1" stat_zero = Ret (0, file_stat docs_world 5)
  /\ my_open docs_world "/1" O_RDONLY = Ret 0
  /\ my_read docs_world "/1" 10 0 = Ret (5, "hello")
  /\ my_read docs_world "/1" 5 10 = Ret (0, "")
  /\ my_getattr docs_world "/9" stat_zero = Ret (- ENOENT, stat_zero)
  /\ my_open docs_world "/9" O_RDONLY = Ret (- ENOENT)
  /\ my_read docs_world "/9" 1 0 = Ret (- ENOENT, "")
  /\ my_read docs_world "/" 1 0 = Ret (- EISDIR, "")
  /\ my_open docs_world_offline "/1" O_RDONLY = Ret (- EAGAIN).
Proof. repeat split. Qed.


(** * More of the driver *)

(** ** The older validators and path test *)

(** X1: the older [is_uint] accepts the strings of decimal digits, the
    empty one among them. *)
Theorem legacy_is_uint_iff (s : string) :
  Legacy.is_uint s = true <-> every_char decimal_digit s.
Proof.
  unfold Legacy.is_uint; apply scan_chars_every.
  intros c; rewrite <- isdigit_decimal.
  destruct (isdigit c); simpl; split; congruence.
Qed.

Lemma legacy_is_uint_nonempty (s : string) :
  s <> "" -> Legacy.is_uint s = is_uint s.
Proof.
  intros H; unfold is_uint, Legacy.is_uint.
  destruct (strlen s =? 0)%nat eqn:E; [|reflexivity].
  apply strlen_zero_iff in E; contradiction.
Qed.

Lemma legacy_is_valid_path_eq (path : string) :
  LegacyDriver.is_valid_path path = is_valid_path path.
Proof.
  unfold LegacyDriver.is_valid_path, is_valid_path; rewrite strcmp_eqb.
  destruct (String.eqb_spec path "/") as [->|Hne]; [reflexivity|].
  destruct path as [|c rest]; [reflexivity|].
  change (char_at (String c rest) 0) with c; cbn [ptr_succ].
  destruct (Ascii.eqb_spec c "/") as [->|Hc]; cbn [negb]; [|reflexivity].
  rewrite legacy_is_uint_nonempty; [reflexivity|].
  intros ->; now elim Hne.
Qed.

(** X3: the missing test for the empty string in the older [is_uint] does
    not show in the older [is_valid_path]: it accepts the paths the
    corrected one accepts, since "/" is taken before the digits are
    looked at. *)
Theorem legacy_is_valid_path_agrees (path : string) :
  LegacyDriver.is_valid_path path = is_valid_path path
  /\ (LegacyDriver.is_valid_path path = true
      <-> path = "/" \/ exists key, row_path path key).
Proof.
  split; [apply legacy_is_valid_path_eq|].
  rewrite legacy_is_valid_path_eq, is_valid_path_true_iff.
  split; (intros [H|[key H]]; [now left|right; exists key]).
  - destruct H as [-> U]; apply is_uint_true_iff in U.
    now split.
  - destruct H as [-> U]; split; [reflexivity|now apply is_uint_true_iff].
Qed.

(** ** The callbacks on a row key *)

Lemma valid_path_cases (path : string) :
  is_valid_path path = true ->
  (strcmp path "/" =? 0) = false ->
  resolve path = RowKey (ptr_succ path).
Proof.
  intros V S; unfold resolve; now rewrite V, S.
Qed.

Lemma my_getattr_row_answer (w : world) (path key : string) (stbuf : stat) :
  resolve path = RowKey key ->
  my_getattr w path stbuf
  = if malloc_ok w 0 then
      if malloc_ok w 1 then
        if malloc_ok w 2
        then getattr_answer w (mysql_query w (size_query w key))
        else Ret (- ENOENT, stat_zero)
      else Ret (ENOENT, stat_zero)
    else Ret (- ENOENT, stat_zero).
Proof.
  intros R; apply resolve_row_key_iff, row_path_tests in R.
  destruct R as (V & S & P & L).
  unfold my_getattr, malloc; rewrite V, S, P; cbn [negb].
  destruct (malloc_ok w 0); [|reflexivity].
  rewrite write_str_fits by lia; cbn [bind].
  destruct (malloc_ok w 1); [|reflexivity].
  rewrite size_fp_fits; cbn [bind].
  destruct (malloc_ok w 2); [|reflexivity].
  rewrite size_query_fits; cbn [bind].
  reflexivity.
Qed.

Lemma my_open_row_answer (w : world) (path key : string) (flags : Z) :
  resolve path = RowKey key ->
  Z.land flags 1 = 0 ->
  my_open w path flags
  = if malloc_ok w 0 then
      if malloc_ok w 1
      then open_answer (mysql_query w (exists_query w key))
      else Ret (- ENOMEM)
    else Ret (- ENOMEM).
Proof.
  intros R F; apply resolve_row_key_iff, row_path_tests in R.
  destruct R as (V & S & P & L).
  unfold my_open, malloc; rewrite V, S, P; cbn [negb].
  change (c_eq O_RDONLY 0) with 1; rewrite F; cbn [Z.eqb negb].
  destruct (malloc_ok w 0); [|reflexivity].
  rewrite write_str_fits by lia; cbn [bind].
  destruct (malloc_ok w 1); [|reflexivity].
  rewrite exists_query_fits; cbn [bind].
  reflexivity.
Qed.

Lemma my_read_row_answer (w : world) (path key : string) (size offset : Z) :
  resolve path = RowKey key ->
  my_read w path size offset
  = if malloc_ok w 0 then
      if malloc_ok w 1 then
        match mysql_query w (content_query w key) with
        | Some res => read_rows res size offset
        | None => Ret (- ENOMEM, "")
        end
      else Ret (- ENOMEM, "")
    else Ret (- ENOMEM, "").
Proof.
  intros R; apply resolve_row_key_iff, row_path_tests in R.
  destruct R as (V & S & P & L).
  unfold my_read, malloc; rewrite V, S, P; cbn [negb].
  destruct (malloc_ok w 0); [|reflexivity].
  rewrite write_str_fits by lia; cbn [bind].
  destruct (malloc_ok w 1); [|reflexivity].
  rewrite content_query_fits; cbn [bind].
  reflexivity.
Qed.

Lemma my_readdir_root_answer (w : world) :
  my_readdir w "/"
  = let dots := [Filler (Some "."); Filler (Some "..")] in
    let size := (strlen readdir_qp + strlen (my_name_field w)
                 + strlen (my_table w) + strlen (my_name_field w))%nat in
    if malloc_ok w 0 then
      match mysql_query w (listing_query w) with
      | Some res =>
          let (names, r) := fill_rows res in
          (dots ++ [Malloc size true; Query (listing_query w)] ++ names,
           _ <- r ;; Ret 0)%list
      | None =>
          (dots ++ [Malloc size true; Query (listing_query w)],
           Ret (- ENOENT))%list
      end
    else (dots ++ [Malloc size false], Ret (- ENOMEM))%list.
Proof.
  unfold my_readdir, malloc; cbn [strcmp Ascii.eqb Bool.eqb Z.eqb negb].
  cbv zeta.
  destruct (malloc_ok w 0); [|reflexivity].
  now rewrite listing_query_fits.
Qed.

(** X2: the older [is_valid_ident] accepts the empty string and nothing
    else, so it rejects every identifier the corrected one accepts. *)
Theorem legacy_is_valid_ident_rejects_identifiers (s : string) :
  (Legacy.is_valid_ident s = true <-> s = "")
  /\ (is_valid_ident s = true -> Legacy.is_valid_ident s = false).
Proof.
  split; [apply legacy_is_valid_ident_iff|].
  intros V; destruct (Legacy.is_valid_ident s) eqn:E; [|reflexivity].
  apply legacy_is_valid_ident_iff in E; subst; discriminate.
Qed.

Lemma legacy_is_valid_ident_rejects_identifiers_witness :
  Legacy.is_valid_ident "docs" = false.
Proof.
  apply (legacy_is_valid_ident_rejects_identifiers "docs"); reflexivity.
Defined.

(** ** my_open, the rest *)

Lemma open_answer_codes (answer : option MYSQL_RES) :
  exists c, open_answer answer = Ret c /\ In c [0; - ENOENT; - EAGAIN].
Proof.
  destruct answer as [[|row res]|]; cbn.
  - exists (- ENOENT); split; [reflexivity|cbn; auto].
  - exists 0; split; [reflexivity|cbn; auto].
  - exists (- EAGAIN); split; [reflexivity|cbn; auto].
Qed.

Ltac pick_code := cbn [In]; repeat first [left; reflexivity | right].

(** X4: whatever the path, the flags, the allocator and the server,
    [my_open] returns one of 0, [-ENOENT], [-EROFS], [-EAGAIN] and
    [-ENOMEM]; its two buffers always hold what is written to them. *)
Theorem my_open_codes (w : world) (path : string) (flags : Z) :
  exists c,
    my_open w path flags = Ret c
    /\ In c [0; - ENOENT; - EROFS; - EAGAIN; - ENOMEM].
Proof.
  destruct (is_valid_path path) eqn:V.
  - destruct (Z.eqb_spec (Z.land flags 1) 0) as [F|F].
    + destruct (strcmp path "/" =? 0) eqn:S.
      * exists 0; split; [|pick_code].
        unfold my_open; rewrite V, S.
        change (c_eq O_RDONLY 0) with 1; now rewrite F.
      * rewrite (my_open_row_answer w path (ptr_succ path))
          by (assumption || now apply valid_path_cases).
        destruct (malloc_ok w 0);
          [|exists (- ENOMEM); split; [reflexivity|pick_code]].
        destruct (malloc_ok w 1);
          [|exists (- ENOMEM); split; [reflexivity|pick_code]].
        destruct (open_answer_codes
                    (mysql_query w (exists_query w (ptr_succ path))))
          as (c & E & [H|[H|[H|[]]]]); exists c; (split; [exact E|]);
          subst c; pick_code.
    + exists (- EROFS); split; [|pick_code].
      unfold my_open; rewrite V; cbn [negb].
      change (c_eq O_RDONLY 0) with 1.
      apply Z.eqb_neq in F; now rewrite F.
  - exists (- ENOENT); split; [|pick_code].
    unfold my_open; now rewrite V.
Qed.

(** X5: with the lowest bit of the flags clear ([O_RDONLY], [O_RDWR]), the
    root opens whatever the allocator and the server do, and a row key,
    once its two buffers are allocated and the query is answered, opens
    exactly when the answer has a row; it is [-ENOENT] otherwise. *)
Theorem my_open_finds_row (w : world) (path key : string) (flags : Z)
  (res : MYSQL_RES) :
  Z.land flags 1 = 0 ->
  my_open w "/" flags = Ret 0
  /\ (resolve path = RowKey key ->
      allocations_succeed w 2 ->
      mysql_query w (exists_query w key) = Some res ->
      (res = [] -> my_open w path flags = Ret (- ENOENT))
      /\ (res <> [] -> my_open w path flags = Ret 0)).
Proof.
  intros F; split.
  - unfold my_open; cbn [is_valid_path strcmp Ascii.eqb Bool.eqb Z.eqb negb].
    change (c_eq O_RDONLY 0) with 1; now rewrite F.
  - intros R A Q.
    rewrite (my_open_row_answer w path key) by assumption.
    rewrite !A, Q by lia.
    destruct res as [|row res]; split; intros H; try reflexivity;
      congruence.
Qed.

Lemma my_open_finds_row_witness :
  my_open docs_world "/" O_RDONLY = Ret 0
  /\ my_open docs_world "/9" O_RDONLY = Ret (- ENOENT)
  /\ my_open docs_world "/1" O_RDONLY = Ret 0.
Proof.
  destruct (my_open_finds_row docs_world "/9" "9" O_RDONLY [] eq_refl)
    as (H0 & H1).
  destruct (my_open_finds_row docs_world "/1" "1" O_RDONLY [[Some "1"]]
              eq_refl) as (_ & H2).
  split; [exact H0|split].
  - apply H1; [reflexivity|apply docs_world_allocations|reflexivity
              |reflexivity].
  - apply H2; [reflexivity|apply docs_world_allocations|reflexivity
              |discriminate].
Defined.

(** X6: on a row key [my_open] answers a refused buffer with [-ENOMEM] and
    a query without result set with [-EAGAIN]. *)
Theorem my_open_resource_failures (w : world) (path key : string)
  (flags : Z) :
  resolve path = RowKey key ->
  Z.land flags 1 = 0 ->
  (malloc_ok w 0 = false -> my_open w path flags = Ret (- ENOMEM))
  /\ (malloc_ok w 0 = true -> malloc_ok w 1 = false ->
      my_open w path flags = Ret (- ENOMEM))
  /\ (allocations_succeed w 2 ->
      mysql_query w (exists_query w key) = None ->
      my_open w path flags = Ret (- EAGAIN)).
Proof.
  intros R F; rewrite (my_open_row_answer w path key) by assumption.
  split; [|split].
  - now intros ->.
  - now intros -> ->.
  - intros A Q; now rewrite !A, Q by lia.
Qed.

Lemma my_open_resource_failures_witness :
  my_open docs_world_no_memory "/1" O_RDONLY = Ret (- ENOMEM)
  /\ my_open docs_world_one_block "/1" O_RDONLY = Ret (- ENOMEM)
  /\ my_open docs_world_offline "/1" O_RDONLY = Ret (- EAGAIN).
Proof.
  destruct (my_open_resource_failures docs_world_no_memory "/1" "1"
              O_RDONLY eq_refl eq_refl) as (H0 & _).
  destruct (my_open_resource_failures docs_world_one_block "/1" "1"
              O_RDONLY eq_refl eq_refl) as (_ & H1 & _).
  destruct (my_open_resource_failures docs_world_offline "/1" "1"
              O_RDONLY eq_refl eq_refl) as (_ & _ & H2).
  split; [apply H0; reflexivity|].
  split; [apply H1; reflexivity|].
  apply H2; [intros k _; reflexivity|reflexivity].
Defined.

(** X7: the older [my_open] takes the same decisions as the corrected one
    and returns 0 where it returns 0, and [-ENOENT] for each of its error
    codes. *)
Theorem legacy_my_open_codes (w : world) (path : string) (flags : Z) :
  LegacyDriver.my_open w path flags
  = match my_open w path flags with
    | Ret c => Ret (as_legacy_code c)
    | Fault => Fault
    end.
Proof.
  unfold LegacyDriver.my_open, my_open; rewrite legacy_is_valid_path_eq.
  destruct (is_valid_path path); cbn [negb]; [|reflexivity].
  destruct (Z.land flags (c_eq O_RDONLY 0) =? 0); cbn [negb]; [|reflexivity].
  destruct (strcmp path "/" =? 0); [reflexivity|].
  destruct (malloc w 0 _); [|reflexivity].
  destruct (write_str _ _); cbn [bind]; [|reflexivity].
  destruct (malloc w 1 _); [|reflexivity].
  destruct (write_str _ _); cbn [bind]; [|reflexivity].
  destruct (mysql_query w _) as [res|]; [|reflexivity].
  destruct (mysql_fetch_row res); reflexivity.
Qed.

(** ** my_readdir, the rest *)

Lemma fill_rows_names (res : MYSQL_RES) :
  Forall (fun row => row <> []) res ->
  fill_rows res = (map (fun row => Filler (hd None row)) res, Ret tt).
Proof.
  induction 1 as [|row res Hrow _ IH]; [reflexivity|].
  destruct row as [|name rest]; [now elim Hrow|].
  cbn [fill_rows row_col nth_error map hd]; now rewrite IH.
Qed.

(** X8: a listing of the root that gets its buffer and an answer hands to
    [filler] ".", "..", and then the first column of every row, in the
    order of the answer and as many times as there are rows; it returns 0,
    also when the table is empty. *)
Theorem my_readdir_lists_rows (w : world) (res : MYSQL_RES) :
  malloc_ok w 0 = true ->
  mysql_query w (listing_query w) = Some res ->
  Forall (fun row => row <> []) res ->
  exists size,
    my_readdir w "/"
    = (Filler (Some ".") :: Filler (Some "..") :: Malloc size true
         :: Query (listing_query w)
         :: map (fun row => Filler (hd None row)) res, Ret 0)
    /\ (res = [] ->
        my_readdir w "/"
        = ([Filler (Some "."); Filler (Some ".."); Malloc size true;
            Query (listing_query w)], Ret 0)).
Proof.
  intros M Q Rows; rewrite my_readdir_root_answer; cbv zeta.
  rewrite M, Q, (fill_rows_names res Rows).
  eexists; split; [reflexivity|].
  now intros ->.
Qed.

Lemma my_readdir_lists_rows_witness :
  exists size,
    my_readdir docs_world "/"
    = (Filler (Some ".") :: Filler (Some "..") :: Malloc size true
         :: Query (listing_query docs_world)
         :: map (fun row => Filler (hd None row)) [[Some "1"]], Ret 0)
    /\ ([[Some "1"]] = [] ->
        my_readdir docs_world "/"
        = ([Filler (Some "."); Filler (Some ".."); Malloc size true;
            Query (listing_query docs_world)], Ret 0)).
Proof.
  apply (my_readdir_lists_rows docs_world [[Some "1"]]).
  - reflexivity.
  - reflexivity.
  - repeat constructor; discriminate.
Defined.

(** X9: [my_readdir] knows one directory: for every other path, the path
    of a row included, it returns [-ENOENT] and has called neither
    [filler] nor the server. *)
Theorem my_readdir_only_root (w : world) (path : string) :
  path <> "/" ->
  my_readdir w path = ([], Ret (- ENOENT))
  /\ LegacyDriver.my_readdir w path = ([], Ret (- ENOENT)).
Proof.
  intros H; unfold my_readdir, LegacyDriver.my_readdir; rewrite strcmp_eqb.
  now destruct (String.eqb_spec path "/").
Qed.

Lemma my_readdir_only_root_witness :
  my_readdir docs_world "/1" = ([], Ret (- ENOENT))
  /\ LegacyDriver.my_readdir docs_world "/1" = ([], Ret (- ENOENT)).
Proof.
  apply (my_readdir_only_root docs_world "/1"); discriminate.
Defined.

(** X10: the older [my_readdir] makes the calls of the corrected one and
    returns 0 where it returns 0; it answers the refused buffer with
    [-ENOENT] where the corrected one says [-ENOMEM]. *)
Theorem legacy_my_readdir_codes (w : world) (path : string) :
  LegacyDriver.my_readdir w path
  = (fst (my_readdir w path),
     match snd (my_readdir w path) with
     | Ret c => Ret (as_legacy_code c)
     | Fault => Fault
     end).
Proof.
  unfold LegacyDriver.my_readdir, my_readdir.
  destruct (strcmp path "/" =? 0); cbn [negb]; [|reflexivity].
  cbv zeta.
  destruct (malloc w 0 _); [|reflexivity].
  destruct (write_str _ _); [|reflexivity].
  destruct (mysql_query w _) as [res|]; [|reflexivity].
  destruct (fill_rows res) as [names [[]|]]; reflexivity.
Qed.

(** ** my_getattr, the rest *)

(** X11: on a row key [my_getattr] answers a refused first or third
    buffer, and a query without result set, with [-ENOENT], the code of a
    missing row, and leaves the [struct stat] cleared. *)
Theorem my_getattr_failures_look_absent (w : world) (path key : string)
  (stbuf : stat) :
  resolve path = RowKey key ->
  (malloc_ok w 0 = false ->
   my_getattr w path stbuf = Ret (- ENOENT, stat_zero))
  /\ (malloc_ok w 0 = true -> malloc_ok w 1 = true ->
      malloc_ok w 2 = false ->
      my_getattr w path stbuf = Ret (- ENOENT, stat_zero))
  /\ (allocations_succeed w 3 ->
      mysql_query w (size_query w key) = None ->
      my_getattr w path stbuf = Ret (- ENOENT, stat_zero)).
Proof.
  intros R; rewrite (my_getattr_row_answer w path key) by assumption.
  split; [|split].
  - now intros ->.
  - now intros -> -> ->.
  - intros A Q; now rewrite !A, Q by lia.
Qed.

Lemma my_getattr_failures_look_absent_witness :
  my_getattr docs_world_no_memory "/1" stat_zero = Ret (- ENOENT, stat_zero)
  /\ my_getattr docs_world_offline "/1" stat_zero
     = Ret (- ENOENT, stat_zero).
Proof.
  destruct (my_getattr_failures_look_absent docs_world_no_memory "/1" "1"
              stat_zero eq_refl) as (H0 & _).
  destruct (my_getattr_failures_look_absent docs_world_offline "/1" "1"
              stat_zero eq_refl) as (_ & _ & H2).
  split; [apply H0; reflexivity|].
  apply H2; [intros k _; reflexivity|reflexivity].
Defined.

(** X12: whatever the allocator and the server do, [my_getattr] on a valid
    path whose fetched row, if there is one, has a value in its first
    column returns 0, [-ENOENT] or [ENOENT]: its three buffers always hold
    what is written to them. *)
Theorem my_getattr_codes (w : world) (path : string) (stbuf : stat) :
  (forall row res,
      mysql_query w (size_query w (ptr_succ path)) = Some (row :: res) ->
      exists v rest, row = Some v :: rest) ->
  exists c st,
    my_getattr w path stbuf = Ret (c, st)
    /\ In c [0; - ENOENT; ENOENT].
Proof.
  intros Rows; destruct (is_valid_path path) eqn:V.
  - destruct (strcmp path "/" =? 0) eqn:S.
    + exists 0, (directory_stat w); split; [|pick_code].
      unfold my_getattr; now rewrite V, S.
    + rewrite (my_getattr_row_answer w path (ptr_succ path))
        by now apply valid_path_cases.
      destruct (malloc_ok w 0);
        [|exists (- ENOENT), stat_zero; split; [reflexivity|pick_code]].
      destruct (malloc_ok w 1);
        [|exists ENOENT, stat_zero; split; [reflexivity|pick_code]].
      destruct (malloc_ok w 2);
        [|exists (- ENOENT), stat_zero; split; [reflexivity|pick_code]].
      destruct (mysql_query w (size_query w (ptr_succ path)))
        as [[|row res]|] eqn:Q; cbn [getattr_answer mysql_fetch_row].
      * exists (- ENOENT), stat_zero; split; [reflexivity|pick_code].
      * destruct (Rows row res eq_refl) as (v & rest & ->).
        exists 0, (file_stat w (atoi v)); split; [reflexivity|pick_code].
      * exists (- ENOENT), stat_zero; split; [reflexivity|pick_code].
  - exists (- ENOENT), stbuf; split; [|pick_code].
    unfold my_getattr; now rewrite V.
Qed.

Lemma my_getattr_codes_witness :
  exists c st,
    my_getattr docs_world "/1" stat_zero = Ret (c, st)
    /\ In c [0; - ENOENT; ENOENT].
Proof.
  apply (my_getattr_codes docs_world "/1" stat_zero).
  intros row res Q; injection Q as <- <-; now exists "5", [].
Defined.

(** *** The length as the server writes it *)

Lemma digits_value_step (acc : Z) (c : ascii) (rest : string) :
  isdigit c = true ->
  digits_value acc (String c rest)
  = digits_value (acc * 10 + (code c - 48)) rest.
Proof. intros D; cbn [digits_value]; now rewrite D. Qed.

Ltac digit_step :=
  cbn [NilEmpty.string_of_uint];
  rewrite digits_value_step by reflexivity;
  match goal with
  | |- context [code ?c - 48] =>
      let k := eval vm_compute in (code c - 48) in
      change (code c - 48) with k
  end.

Lemma digits_value_of_uint_acc (d : Decimal.uint) (acc : positive) :
  digits_value (Z.pos acc) (NilEmpty.string_of_uint d)
  = Z.pos (Pos.of_uint_acc d acc).
Proof.
  revert acc; induction d; intros acc;
    [reflexivity|digit_step; cbn [Pos.of_uint_acc]; rewrite <- IHd; f_equal;
                 lia ..].
Qed.

Lemma digits_value_of_uint (d : Decimal.uint) :
  digits_value 0 (NilEmpty.string_of_uint d) = Z.of_N (Pos.of_uint d).
Proof.
  induction d; [reflexivity|digit_step; cbn [Pos.of_uint Z.of_N Z.mul Z.add] ..];
    [exact IHd|apply digits_value_of_uint_acc ..].
Qed.

Lemma to_uint_not_nil (n : N) : N.to_uint n <> Decimal.Nil.
Proof.
  destruct n as [|p]; [discriminate|apply Unsigned.to_uint_nonnil].
Qed.

Lemma decimal_nil_empty (n : Z) :
  decimal n = NilEmpty.string_of_uint (N.to_uint (Z.to_N n)).
Proof.
  unfold decimal, NilZero.string_of_uint.
  pose proof (to_uint_not_nil (Z.to_N n)) as H.
  now destruct (N.to_uint (Z.to_N n)).
Qed.

Lemma digits_value_decimal (n : Z) :
  0 <= n -> digits_value 0 (decimal n) = n.
Proof.
  intros H; rewrite decimal_nil_empty, digits_value_of_uint.
  change (Pos.of_uint (N.to_uint (Z.to_N n)))
    with (N.of_uint (N.to_uint (Z.to_N n))).
  rewrite DecimalN.Unsigned.of_to; lia.
Qed.

Lemma every_char_digit_of_uint (d : Decimal.uint) :
  every_char decimal_digit (NilEmpty.string_of_uint d).
Proof.
  unfold every_char; induction d; cbn [NilEmpty.string_of_uint
                                         list_ascii_of_string];
    constructor; try assumption; unfold decimal_digit; cbn; auto 12.
Qed.

Lemma is_uint_decimal (n : Z) : is_uint (decimal n) = true.
Proof.
  apply is_uint_true_iff; rewrite decimal_nil_empty; split.
  - pose proof (to_uint_not_nil (Z.to_N n)) as H.
    now destruct (N.to_uint (Z.to_N n)).
  - apply every_char_digit_of_uint.
Qed.

Lemma strtol_digits (v : string) :
  is_uint v = true -> strtol v = Z.min LONG_MAX (digits_value 0 v).
Proof.
  intros U; apply is_uint_true_iff in U as [Hne D].
  destruct v as [|c s]; [now elim Hne|].
  inversion D as [|c' l Hc _]; subst.
  apply isdigit_decimal, isdigit_not_space_or_sign in Hc as (Sp & Mi & Pl).
  pose proof (digits_value_ge 0 (String c s)) as G.
  unfold strtol; cbn [skip_space]; rewrite Sp.
  change (char_at (String c s) 0) with c; rewrite Mi, Pl.
  unfold LONG_MIN, LONG_MAX in *; lia.
Qed.

Lemma to_int_range (z : Z) : - 2 ^ 31 <= to_int z <= INT_MAX.
Proof.
  unfold to_int, to_signed, INT_MAX.
  pose proof (Z.mod_pos_bound (z + 2 ^ (32 - 1)) (2 ^ 32)).
  simpl in *; lia.
Qed.

(** X13: when the server writes the length [n] of a row in decimal and [n]
    is at most [INT_MAX], [my_getattr] reports a regular file of exactly
    [n] bytes. *)
Theorem my_getattr_length_round_trip (w : world) (path key : string)
  (n : Z) (rest : MYSQL_ROW) (more : MYSQL_RES) (stbuf : stat) :
  resolve path = RowKey key ->
  allocations_succeed w 3 ->
  mysql_query w (size_query w key)
  = Some ((Some (decimal n) :: rest) :: more) ->
  0 <= n <= INT_MAX ->
  my_getattr w path stbuf = Ret (0, file_stat w n)
  /\ st_size (file_stat w n) = n.
Proof.
  intros R A Q B; split; [|reflexivity].
  rewrite (my_getattr_row_answer w path key), !A, Q by (assumption || lia).
  cbn [getattr_answer mysql_fetch_row row_col nth_error bind atoi_field].
  rewrite atoi_decimal; rewrite ?digits_value_decimal; try lia;
    [reflexivity|apply is_uint_decimal].
Qed.

Lemma my_getattr_length_round_trip_witness :
  my_getattr docs_world "/1" stat_zero = Ret (0, file_stat docs_world 5)
  /\ st_size (file_stat docs_world 5) = 5.
Proof.
  apply (my_getattr_length_round_trip docs_world "/1" "1" 5 [] []);
    [reflexivity|apply docs_world_allocations|reflexivity
    |unfold INT_MAX; lia].
Defined.

(** X14: the length goes through [atoi], an [int]: a row of [n] bytes with
    [n] above [INT_MAX] (and within [long]) is reported with the low 32
    bits of [n] as a signed number, which is not [n]. *)
Theorem my_getattr_length_wraps (w : world) (path key : string)
  (n : Z) (rest : MYSQL_ROW) (more : MYSQL_RES) (stbuf : stat) :
  resolve path = RowKey key ->
  allocations_succeed w 3 ->
  mysql_query w (size_query w key)
  = Some ((Some (decimal n) :: rest) :: more) ->
  INT_MAX < n <= LONG_MAX ->
  my_getattr w path stbuf = Ret (0, file_stat w (to_int n))
  /\ - 2 ^ 31 <= st_size (file_stat w (to_int n)) <= INT_MAX
  /\ st_size (file_stat w (to_int n)) <> n.
Proof.
  intros R A Q B.
  pose proof (to_int_range n) as T.
  assert (0 <= n) by (unfold INT_MAX in B; lia).
  split; [|split; [exact T|cbn [st_size file_stat]; lia]].
  rewrite (my_getattr_row_answer w path key), !A, Q by (assumption || lia).
  cbn [getattr_answer mysql_fetch_row row_col nth_error bind atoi_field].
  unfold atoi; rewrite strtol_digits by apply is_uint_decimal.
  rewrite digits_value_decimal by assumption.
  now rewrite Z.min_r by lia.
Qed.

Lemma my_getattr_length_wraps_witness :
  my_getattr
    (docs_world_with (fun _ => true)
       (fun _ => Some [[Some (decimal 3000000000)]]))
    "/1" stat_zero
  = Ret (0, file_stat docs_world (-1294967296)).
Proof.
  apply (my_getattr_length_wraps
           (docs_world_with (fun _ => true)
              (fun _ => Some [[Some (decimal 3000000000)]]))
           "/1" "1" 3000000000 [] []);
    [reflexivity|intros k _; reflexivity|reflexivity
    |unfold INT_MAX, LONG_MAX; lia].
Defined.

(** ** my_read, the rest *)

Lemma window_length_zero (len size offset : Z) :
  len < offset -> window_length len size offset = 0.
Proof.
  intros H; unfold window_length.
  destruct (Z.leb_spec offset len); [lia|reflexivity].
Qed.

(** In range, [read_rows] on a row with a value is the window of the
    specification. *)
Lemma read_rows_window (content : string) (rest : MYSQL_ROW)
  (more : MYSQL_RES) (size offset : Z) :
  0 <= offset -> 0 <= size -> offset + size <= ULONG_MAX ->
  read_rows ((Some content :: rest) :: more) size offset
  = Ret (to_int (window_length (Z.of_nat (strlen content)) size offset),
         window content size offset).
Proof.
  intros Ho Hs Hsum.
  set (len := Z.of_nat (strlen content)).
  assert (Hl : 0 <= len) by (subst len; lia).
  destruct (window_length_bounds len size offset Hl Ho Hs) as [Hn Hend].
  unfold read_rows, window; fold len.
  cbn [mysql_fetch_row row_col nth_error bind field_length]; fold len.
  destruct (Z.leb_spec (to_ulong offset) len) as [Hle|Hgt].
  - cbv zeta; rewrite clamp_in_range by assumption.
    rewrite to_ulong_small in Hle by lia.
    unfold memcpy.
    destruct (Z.eqb_spec (window_length len size offset) 0) as [E|E];
      cbn [bind].
    + now rewrite E, substring_none.
    + fold len.
      replace ((0 <=? offset)
               && (offset + window_length len size offset <=? len))
        with true; [reflexivity|].
      symmetry; apply andb_true_iff; split; apply Z.leb_le; lia.
  - rewrite to_ulong_small in Hgt by lia.
    now rewrite window_length_zero, substring_none by assumption.
Qed.

Lemma my_read_present (w : world) (path key content : string)
  (rest : MYSQL_ROW) (more : MYSQL_RES) (size offset : Z) :
  resolve path = RowKey key ->
  allocations_succeed w 2 ->
  mysql_query w (content_query w key)
  = Some ((Some content :: rest) :: more) ->
  0 <= offset -> 0 <= size -> offset + size <= ULONG_MAX ->
  my_read w path size offset
  = Ret (to_int (window_length (Z.of_nat (strlen content)) size offset),
         window content size offset).
Proof.
  intros R A Q Ho Hs Hsum.
  rewrite (my_read_row_answer w path key), !A, Q by (assumption || lia).
  now apply read_rows_window.
Qed.

Lemma substring_all (s : string) : substring 0 (strlen s) s = s.
Proof.
  unfold strlen; induction s as [|c s IH]; simpl; [reflexivity|].
  now rewrite IH.
Qed.

(** X15: a read from offset 0 that asks for at least the length of the
    content returns the whole content and its length (a short read when it
    asks for more), and the next read, at the end of the content, returns
    0 bytes and no error; the length and the size together stay below
    2^64. *)
Theorem my_read_whole_content (w : world) (path key content : string)
  (rest : MYSQL_ROW) (more : MYSQL_RES) (size : Z) :
  resolve path = RowKey key ->
  allocations_succeed w 2 ->
  mysql_query w (content_query w key)
  = Some ((Some content :: rest) :: more) ->
  Z.of_nat (strlen content) <= size ->
  Z.of_nat (strlen content) + size <= ULONG_MAX ->
  Z.of_nat (strlen content) <= INT_MAX ->
  my_read w path size 0 = Ret (Z.of_nat (strlen content), content)
  /\ my_read w path size (Z.of_nat (strlen content)) = Ret (0, "").
Proof.
  intros R A Q Hs Hsum Hi; unfold ULONG_MAX, INT_MAX in *.
  split.
  - rewrite (my_read_present w path key content rest more)
      by (assumption || unfold ULONG_MAX; lia).
    unfold window, window_length.
    destruct (Z.leb_spec 0 (Z.of_nat (strlen content))); [|lia].
    rewrite Z.sub_0_r, Z.min_r, Z.max_r by lia.
    rewrite to_int_small by (unfold INT_MAX; lia).
    now rewrite Nat2Z.id, substring_all.
  - rewrite (my_read_present w path key content rest more)
      by (assumption || unfold ULONG_MAX; lia).
    unfold window, window_length.
    rewrite Z.leb_refl, Z.sub_diag, Z.min_r, Z.max_l by lia.
    now rewrite substring_none.
Qed.

Lemma my_read_whole_content_witness :
  my_read docs_world "/1" 4096 0 = Ret (5, "hello")
  /\ my_read docs_world "/1" 4096 5 = Ret (0, "").
Proof.
  apply (my_read_whole_content docs_world "/1" "1" "hello" [] [] 4096);
    [reflexivity|apply docs_world_allocations|reflexivity
    |cbn; lia|unfold ULONG_MAX; cbn; lia|unfold INT_MAX; cbn; lia].
Defined.

Lemma substring_append (s : string) (from a b : nat) :
  (from + a <= strlen s)%nat ->
  substring from a s ++ substring (from + a) b s = substring from (a + b) s.
Proof.
  unfold strlen; revert from a.
  induction s as [|c s IH]; intros from a H.
  - simpl in H; assert (from = 0 /\ a = 0)%nat as [-> ->] by lia.
    destruct b; reflexivity.
  - destruct from as [|from].
    + destruct a as [|a]; [reflexivity|].
      cbn [substring Nat.add append]; f_equal.
      simpl in H; specialize (IH 0%nat a); cbn [Nat.add] in IH.
      rewrite <- IH by lia.
      destruct a; reflexivity.
    + cbn [substring Nat.add]; apply IH; simpl in H; lia.
Qed.

Lemma window_chunks (content : string) (size1 size2 offset : Z) :
  0 <= offset -> 0 <= size1 -> 0 <= size2 ->
  window content size1 offset ++ window content size2 (offset + size1)
  = window content (size1 + size2) offset.
Proof.
  intros Ho H1 H2; unfold window.
  set (len := Z.of_nat (strlen content)).
  assert (Hl : 0 <= len) by (subst len; lia).
  unfold window_length.
  destruct (Z.leb_spec offset len) as [Hle|Hgt].
  - destruct (Z.leb_spec (offset + size1) len) as [Hle1|Hgt1].
    + rewrite (Z.min_l size1), (Z.max_r 0 size1) by lia.
      replace (Z.to_nat (offset + size1))
        with (Z.to_nat offset + Z.to_nat size1)%nat by lia.
      rewrite substring_append by (subst len; lia).
      f_equal; lia.
    + rewrite substring_none, append_empty_r.
      f_equal; lia.
  - destruct (Z.leb_spec (offset + size1) len); [lia|].
    now rewrite !substring_none.
Qed.

(** X16: reading a file in consecutive pieces gives the bytes of one read
    of the total size: the bytes of a read of [size1] at [offset] followed
    by those of a read of [size2] at [offset + size1] are the bytes of a
    read of [size1 + size2] at [offset], whether or not the end of the
    content falls inside. *)
Theorem my_read_in_pieces (w : world) (path key content : string)
  (rest : MYSQL_ROW) (more : MYSQL_RES) (size1 size2 offset : Z) :
  resolve path = RowKey key ->
  allocations_succeed w 2 ->
  mysql_query w (content_query w key)
  = Some ((Some content :: rest) :: more) ->
  0 <= offset -> 0 <= size1 -> 0 <= size2 ->
  offset + size1 + size2 <= ULONG_MAX ->
  exists c1 c2 c bytes1 bytes2,
    my_read w path size1 offset = Ret (c1, bytes1)
    /\ my_read w path size2 (offset + size1) = Ret (c2, bytes2)
    /\ my_read w path (size1 + size2) offset = Ret (c, bytes1 ++ bytes2).
Proof.
  intros R A Q Ho H1 H2 Hsum.
  rewrite !(my_read_present w path key content rest more)
    by (assumption || lia).
  do 5 eexists; split; [reflexivity|split; [reflexivity|]].
  now rewrite window_chunks.
Qed.

Lemma my_read_in_pieces_witness :
  exists c1 c2 c bytes1 bytes2,
    my_read docs_world "/1" 3 0 = Ret (c1, bytes1)
    /\ my_read docs_world "/1" 4 (0 + 3) = Ret (c2, bytes2)
    /\ my_read docs_world "/1" (3 + 4) 0 = Ret (c, bytes1 ++ bytes2).
Proof.
  apply (my_read_in_pieces docs_world "/1" "1" "hello" [] [] 3 4 0);
    [reflexivity|apply docs_world_allocations|reflexivity|lia|lia|lia
    |unfold ULONG_MAX; lia].
Defined.

(** X17: a negative offset is compared as the [unsigned long] it converts
    to, which is past the end of any value: the read copies nothing and
    returns 0. *)
Theorem my_read_negative_offset (w : world) (path key : string)
  (v : option string) (rest : MYSQL_ROW) (more : MYSQL_RES)
  (size offset : Z) :
  resolve path = RowKey key ->
  allocations_succeed w 2 ->
  mysql_query w (content_query w key) = Some ((v :: rest) :: more) ->
  LONG_MIN <= offset < 0 ->
  field_length v <= LONG_MAX ->
  my_read w path size offset = Ret (0, "").
Proof.
  intros R A Q Ho Hl; unfold LONG_MIN, LONG_MAX in *.
  rewrite (my_read_row_answer w path key), !A, Q by (assumption || lia).
  unfold read_rows.
  cbn [mysql_fetch_row row_col nth_error bind].
  assert (E : to_ulong offset = offset + 2 ^ 64).
  { unfold to_ulong, to_unsigned.
    symmetry; apply (Z.mod_unique _ _ (-1)); lia. }
  rewrite E.
  destruct (Z.leb_spec (offset + 2 ^ 64) (field_length v)); [lia|].
  reflexivity.
Qed.

Lemma my_read_negative_offset_witness :
  my_read docs_world "/1" 3 (-1) = Ret (0, "").
Proof.
  apply (my_read_negative_offset docs_world "/1" "1" (Some "hello") [] []);
    [reflexivity|apply docs_world_allocations|reflexivity
    |unfold LONG_MIN; lia|unfold LONG_MAX; cbn; lia].
Defined.

(** X18: on a row key [my_read] answers a refused buffer, and a query
    without result set, with [-ENOMEM], and copies nothing. *)
Theorem my_read_resource_failures (w : world) (path key : string)
  (size offset : Z) :
  resolve path = RowKey key ->
  (malloc_ok w 0 = false ->
   my_read w path size offset = Ret (- ENOMEM, ""))
  /\ (malloc_ok w 0 = true -> malloc_ok w 1 = false ->
      my_read w path size offset = Ret (- ENOMEM, ""))
  /\ (allocations_succeed w 2 ->
      mysql_query w (content_query w key) = None ->
      my_read w path size offset = Ret (- ENOMEM, "")).
Proof.
  intros R; rewrite (my_read_row_answer w path key) by assumption.
  split; [|split].
  - now intros ->.
  - now intros -> ->.
  - intros A Q; now rewrite !A, Q by lia.
Qed.

Lemma my_read_resource_failures_witness :
  my_read docs_world_no_memory "/1" 1 0 = Ret (- ENOMEM, "")
  /\ my_read docs_world_one_block "/1" 1 0 = Ret (- ENOMEM, "")
  /\ my_read docs_world_offline "/1" 1 0 = Ret (- ENOMEM, "").
Proof.
  destruct (my_read_resource_failures docs_world_no_memory "/1" "1" 1 0
              eq_refl) as (H0 & _).
  destruct (my_read_resource_failures docs_world_one_block "/1" "1" 1 0
              eq_refl) as (_ & H1 & _).
  destruct (my_read_resource_failures docs_world_offline "/1" "1" 1 0
              eq_refl) as (_ & _ & H2).
  split; [apply H0; reflexivity|].
  split; [apply H1; reflexivity|].
  apply H2; [intros k _; reflexivity|reflexivity].
Defined.

(** X19: the length [my_getattr] reports and the length of a whole read
    agree when the server gives the size query the decimal length of the
    content it gives the content query. *)
Theorem my_read_matches_getattr (w : world) (path key content : string)
  (rest rest' : MYSQL_ROW) (more more' : MYSQL_RES) (size : Z)
  (stbuf : stat) :
  resolve path = RowKey key ->
  allocations_succeed w 3 ->
  mysql_query w (size_query w key)
  = Some ((Some (decimal (Z.of_nat (strlen content))) :: rest) :: more) ->
  mysql_query w (content_query w key)
  = Some ((Some content :: rest') :: more') ->
  Z.of_nat (strlen content) <= INT_MAX ->
  Z.of_nat (strlen content) <= size <= ULONG_MAX ->
  exists st,
    my_getattr w path stbuf = Ret (0, st)
    /\ my_read w path size 0 = Ret (st_size st, content).
Proof.
  intros R A Qs Qc Hi Hs.
  exists (file_stat w (Z.of_nat (strlen content))); split.
  - rewrite (my_getattr_row_answer w path key), !A, Qs by (assumption || lia).
    cbn [getattr_answer mysql_fetch_row row_col nth_error bind atoi_field].
    rewrite atoi_decimal; rewrite ?digits_value_decimal; try lia;
      [reflexivity|apply is_uint_decimal].
  - rewrite (my_read_present w path key content rest' more')
      by (assumption || lia || (intros k Hk; apply A; lia)).
    unfold window, window_length; cbn [st_size file_stat].
    destruct (Z.leb_spec 0 (Z.of_nat (strlen content))); [|lia].
    rewrite Z.sub_0_r, Z.min_r, Z.max_r by lia.
    rewrite to_int_small by lia.
    now rewrite Nat2Z.id, substring_all.
Qed.

Lemma my_read_matches_getattr_witness :
  exists st,
    my_getattr docs_world "/1" stat_zero = Ret (0, st)
    /\ my_read docs_world "/1" 4096 0 = Ret (st_size st, "hello").
Proof.
  apply (my_read_matches_getattr docs_world "/1" "1" "hello" [] [] [] []);
    [reflexivity|apply docs_world_allocations|reflexivity|reflexivity
    |unfold INT_MAX; cbn; lia|unfold ULONG_MAX; cbn; lia].
Defined.

(** ** One query per call *)

Lemma my_open_refused (w : world) (path : string) (flags : Z) :
  is_valid_path path = true ->
  Z.land flags 1 <> 0 ->
  my_open w path flags = Ret (- EROFS).
Proof.
  intros V F; unfold my_open; rewrite V; cbn [negb].
  change (c_eq O_RDONLY 0) with 1.
  apply Z.eqb_neq in F; now rewrite F.
Qed.

Lemma my_open_invalid (w : world) (path : string) (flags : Z) :
  is_valid_path path = false -> my_open w path flags = Ret (- ENOENT).
Proof. intros V; unfold my_open; now rewrite V. Qed.

(** X20: a callback asks the server one thing: the result of [my_getattr],
    [my_open] and [my_read] on a path depends on the server through its
    answer to the size, existence or content query of the key of the path
    alone (and not at all when the path is no row key), and the result of
    [my_readdir] through its answer to the listing query. *)
Theorem callbacks_ask_one_query (w : world)
  (server : string -> option MYSQL_RES) (path : string) :
  ((forall key, resolve path = RowKey key ->
      server (size_query w key) = mysql_query w (size_query w key)) ->
   forall stbuf,
     my_getattr (with_server w server) path stbuf = my_getattr w path stbuf)
  /\ ((forall key, resolve path = RowKey key ->
         server (exists_query w key) = mysql_query w (exists_query w key)) ->
      forall flags,
        my_open (with_server w server) path flags = my_open w path flags)
  /\ ((forall key, resolve path = RowKey key ->
         server (content_query w key) = mysql_query w (content_query w key)) ->
      forall size offset,
        my_read (with_server w server) path size offset
        = my_read w path size offset)
  /\ (server (listing_query w) = mysql_query w (listing_query w) ->
      my_readdir (with_server w server) path = my_readdir w path).
Proof.
  split; [|split; [|split]].
  - intros H stbuf; destruct (resolve path) as [|key|] eqn:R.
    + now rewrite !my_getattr_root.
    + rewrite !(my_getattr_row_answer _ path key) by assumption.
      cbn [malloc_ok with_server mysql_query].
      change (size_query (with_server w server) key) with (size_query w key).
      now rewrite (H key eq_refl).
    + now rewrite !my_getattr_invalid.
  - intros H flags; destruct (resolve path) as [|key|] eqn:R.
    + apply resolve_root_iff in R; subst; reflexivity.
    + destruct (Z.eq_dec (Z.land flags 1) 0) as [F|F].
      * rewrite !(my_open_row_answer _ path key) by assumption.
        cbn [malloc_ok with_server mysql_query].
        change (exists_query (with_server w server) key)
          with (exists_query w key).
        now rewrite (H key eq_refl).
      * apply resolve_row_key_iff, row_path_tests in R as (V & _).
        now rewrite !my_open_refused.
    + apply resolve_invalid_path in R; now rewrite !my_open_invalid.
  - intros H size offset; destruct (resolve path) as [|key|] eqn:R.
    + now rewrite !my_read_root.
    + rewrite !(my_read_row_answer _ path key) by assumption.
      cbn [malloc_ok with_server mysql_query].
      change (content_query (with_server w server) key)
        with (content_query w key).
      now rewrite (H key eq_refl).
    + now rewrite !my_read_invalid.
  - intros H; destruct (String.eqb_spec path "/") as [->|Hne].
    + rewrite !my_readdir_root_answer.
      cbn [malloc_ok with_server mysql_query my_name_field my_table].
      change (listing_query (with_server w server))
        with (listing_query w).
      now rewrite H.
    + now rewrite !my_readdir_other_path.
Qed.

Lemma callbacks_ask_one_query_witness :
  my_getattr (with_server docs_world (fun q =>
      if (q =? size_query docs_world "1")%string
      then Some [[Some "5"]] else None)) "/1" stat_zero
  = my_getattr docs_world "/1" stat_zero
  /\ my_readdir (with_server docs_world (fun q =>
        if (q =? listing_query docs_world)%string
        then Some [[Some "1"]] else None)) "/"
     = my_readdir docs_world "/".
Proof.
  split.
  - apply (callbacks_ask_one_query docs_world _ "/1").
    intros key R; injection R as <-; reflexivity.
  - apply (callbacks_ask_one_query docs_world _ "/"); reflexivity.
Defined.

(** ** The older my_read *)




(** ** main *)

(** The lines [main] prints about the identifiers: the one about the table
    is printed by both tests on the table. *)
Lemma check_and_mount_lines (s : startup) (tbl name data : string) :
  check_and_mount s tbl name data
  = ((if is_valid_ident tbl then []
      else [Puts "Error: Illegal characters in table name identifier";
            Puts "Error: Illegal characters in table name identifier"])
     ++ (if is_valid_ident name then []
         else [Puts "Error: Illegal characters in name field identifier"])
     ++ (if is_valid_ident data then []
         else [Puts "Error: Illegal characters in data field identifier"])
     ++ (if is_valid_ident tbl && is_valid_ident name && is_valid_ident data
         then FuseMain tbl name data
                :: (if fuse_main s =? 0 then [] else [Puts ""])
         else []))%list.
Proof.
  unfold check_and_mount.
  destruct (is_valid_ident tbl), (is_valid_ident name),
    (is_valid_ident data), (fuse_main s =? 0); reflexivity.
Qed.

Lemma check_and_mount_gate (s : startup) (tbl name data t n d : string) :
  In (FuseMain t n d) (check_and_mount s tbl name data) ->
  (t, n, d) = (tbl, name, data)
  /\ is_valid_ident tbl = true
  /\ is_valid_ident name = true
  /\ is_valid_ident data = true.
Proof.
  rewrite check_and_mount_lines.
  destruct (is_valid_ident tbl), (is_valid_ident name),
    (is_valid_ident data), (fuse_main s =? 0); cbn;
    intros H; repeat (destruct H as [H|H]; try discriminate H);
    try contradiction; injection H as <- <- <-; auto.
Qed.

(** X22: [main] hands the mount to [fuse_main] only after the connection
    is made and with a table, a name field and a data field that
    [is_valid_ident] accepts, and they are the ones of the command line. *)
Theorem main_mounts_valid_identifiers (s : startup) (tbl name data : string) :
  In (FuseMain tbl name data) (fst (main s)) ->
  is_valid_ident tbl = true
  /\ is_valid_ident name = true
  /\ is_valid_ident data = true
  /\ connect_error s = None
  /\ exists opts,
       fuse_opt_parse s = Some opts
       /\ table opts = Some tbl
       /\ name_field opts = Some name
       /\ data_field opts = Some data.
Proof.
  unfold main.
  destruct (fuse_opt_parse s) as [opts|]; [|intros []].
  cbn [fst].
  destruct (database opts) as [db|];
    [|intros [H|[]]; discriminate H].
  destruct (table opts) as [t|] eqn:Et; [|intros [H|[]]; discriminate H].
  destruct (name_field opts) as [n|] eqn:En;
    [|intros [H|[]]; discriminate H].
  destruct (data_field opts) as [d|] eqn:Ed;
    [|intros [H|[]]; discriminate H].
  destruct (startup_malloc_ok s 0); [|intros [H|[]]; discriminate H].
  destruct (startup_malloc_ok s 1); [|intros [H|[]]; discriminate H].
  destruct (startup_malloc_ok s 2); [|intros [H|[]]; discriminate H].
  cbv zeta.
  assert (P : forall rest : list main_event,
             In (FuseMain tbl name data)
                ((if negb (rq_password opts =? 0) then [GetPass] else [])
                 ++ rest) ->
             In (FuseMain tbl name data) rest).
  { intros rest; destruct (negb (rq_password opts =? 0)); cbn;
      [intros [H|H]; [discriminate H|exact H]|trivial]. }
  destruct (negb (negb (rq_password opts =? 0))
            || negb (is_null
                       (if negb (rq_password opts =? 0)
                        then getpass s else None))).
  - intros H; apply P in H; destruct H as [H|H]; [discriminate H|].
    destruct (connect_error s) as [text|];
      [destruct H as [H|[]]; discriminate H|].
    apply check_and_mount_gate in H as (E & Vt & Vn & Vd).
    injection E as -> -> ->.
    repeat split; try assumption.
    exists opts; repeat split; assumption.
  - destruct (negb (rq_password opts =? 0)); cbn;
      [intros [H|[]]; discriminate H|intros []].
Qed.

Lemma main_mounts_valid_identifiers_witness :
  is_valid_ident "docs" = true
  /\ is_valid_ident "id" = true
  /\ is_valid_ident "body" = true
  /\ connect_error docs_startup = None
  /\ exists opts,
       fuse_opt_parse docs_startup = Some opts
       /\ table opts = Some "docs"
       /\ name_field opts = Some "id"
       /\ data_field opts = Some "body".
Proof.
  apply (main_mounts_valid_identifiers docs_startup "docs" "id" "body").
  vm_compute; right; left; reflexivity.
Defined.

(** X23: with the four options given, the three blocks allocated and the
    password, if one is asked for, typed, [main] connects (to port 3306
    when no port is given) and then prints one line for the name field and
    for the data field that [is_valid_ident] rejects and two for the table;
    it calls [fuse_main] when it has printed none, and prints an empty
    line after a mount that returns an error. *)
Theorem main_checks_identifiers (s : startup) (opts : options)
  (db tbl name data : string) :
  fuse_opt_parse s = Some opts ->
  database opts = Some db ->
  table opts = Some tbl ->
  name_field opts = Some name ->
  data_field opts = Some data ->
  (forall k, (k < 3)%nat -> startup_malloc_ok s k = true) ->
  rq_password opts = 0 \/ getpass s <> None ->
  connect_error s = None ->
  main s
  = (((if rq_password opts =? 0 then [] else [GetPass])
      ++ Connect (hostname opts) (username opts)
           (if rq_password opts =? 0 then None else getpass s) db
           (if port opts =? 0 then 3306 else port opts)
      :: (if is_valid_ident tbl then []
          else [Puts "Error: Illegal characters in table name identifier";
                Puts "Error: Illegal characters in table name identifier"])
      ++ (if is_valid_ident name then []
          else [Puts "Error: Illegal characters in name field identifier"])
      ++ (if is_valid_ident data then []
          else [Puts "Error: Illegal characters in data field identifier"])
      ++ (if is_valid_ident tbl && is_valid_ident name && is_valid_ident data
          then FuseMain tbl name data
                 :: (if fuse_main s =? 0 then [] else [Puts ""])
          else []))%list, 0).
Proof.
  intros Hp Hdb Ht Hn Hd A Pw C.
  unfold main; rewrite Hp, Hdb, Ht, Hn, Hd, !A, C by lia.
  cbv zeta; rewrite check_and_mount_lines.
  destruct (rq_password opts =? 0) eqn:E; cbn [negb orb]; [reflexivity|].
  destruct Pw as [Pw|Pw]; [rewrite Pw in E; discriminate E|].
  destruct (getpass s); [reflexivity|now elim Pw].
Qed.

Lemma main_checks_identifiers_witness :
  main docs_startup
  = ([Connect None None None "test" 3306; FuseMain "docs" "id" "body"], 0).
Proof.
  apply (main_checks_identifiers docs_startup docs_options
           "test" "docs" "id" "body");
    try reflexivity.
  now left.
Defined.

(** X24: [main] without one of the four options prints one line, connects
    to nothing and serves nothing; the line for a missing name field says
    "Date field" and the line for a missing data field says "Name
    field". *)
Theorem main_missing_option (s : startup) (opts : options) :
  fuse_opt_parse s = Some opts ->
  (database opts = None ->
   main s = ([Puts "Database name must be specified"], 0))
  /\ (database opts <> None -> table opts = None ->
      main s = ([Puts "Table name must be specified"], 0))
  /\ (database opts <> None -> table opts <> None ->
      name_field opts = None ->
      main s = ([Puts "Date field must be specified"], 0))
  /\ (database opts <> None -> table opts <> None ->
      name_field opts <> None -> data_field opts = None ->
      main s = ([Puts "Name field must be specified"], 0)).
Proof.
  intros Hp; unfold main; rewrite Hp.
  destruct (database opts), (table opts), (name_field opts),
    (data_field opts); repeat split; intros; congruence.
Qed.

Lemma main_missing_option_witness :
  main docs_startup_no_name_field
  = ([Puts "Date field must be specified"], 0).
Proof.
  destruct (main_missing_option docs_startup_no_name_field _ eq_refl)
    as (_ & _ & H & _).
  apply H; [discriminate|discriminate|reflexivity].
Defined.


